(** * toutago: the message bus and the dependency-injection container

    A shallow embedding of [internal/message] (the channel based bus) and
    [internal/di] (the reflective container), with the properties of the
    specification stated over it.

    Conventions.  A Go method with a pointer receiver becomes a function
    that takes the receiver's state and returns the new state next to the
    result.  A call that does not return normally (a run-time panic, a
    goroutine parked for ever) is an outcome of its own, never an error
    value.

    What is abstracted.  One goroutine runs at a time: where the runtime
    chooses between ready cases of a [select], or the order in which it
    enumerates a map, the choice is an argument.  Of [reflect] only the
    fragment the container calls is there.  The bodies of constructors
    and factories are small programs that allocate structs and call back
    into the container; the mutexes are reduced to the one fact that
    matters to a single goroutine, whether it holds the read lock. *)

From stdpp Require Import gmap strings list fin_maps.
From Stdlib Require Import ZArith Lia.

Open Scope string_scope.
Open Scope list_scope.

(* ===================================================================== *)
(** * Part I: the message bus ([package message]) *)
(* ===================================================================== *)

Module Bus.

(** Go [error] values seen at the bus interface. *)
Inductive error :=
| ErrNotStarted                 (* fmt.Errorf("message bus not started") *)
| ErrAlreadyStarted             (* fmt.Errorf("message bus already started") *)
| ErrContext (reason : string)  (* ctx.Err() *)
| ErrHandler (msg : string).    (* whatever a handler returned *)

(** The caller's [context.Context]: still live, or done with [ctx.Err()]. *)
Inductive context :=
| CtxLive
| CtxDone (err : error).

(** How a call ends.  [Blocks] is a goroutine parked on a [select] with no
    ready case. *)
Inductive outcome (A : Type) :=
| Returns (a : A)
| Panics (msg : string)
| Blocks.
Arguments Returns {A} a.
Arguments Panics {A} msg.
Arguments Blocks {A}.

(** [BaseMessage]: the bus only ever reads [Slug()] and [Type()]. *)
Record Message := {
  MessageSlug : string;
  MessageType : string;
  Meta : list (string * string)
}.

Definition Slug (m : Message) : string := MessageSlug m.
Definition Type_ (m : Message) : string := MessageType m.

Section WithWorld.

(** Everything handlers can observe or change outside the bus. *)
Context {World : Type}.

(** [touta.MessageHandler].  [h_addr] is the pointer that [%p] prints,
    the only identity [Unsubscribe] compares.  The response message of
    [Handle] is dropped by every caller in the bus, so only the error is
    kept. *)
Record MessageHandler := {
  h_addr : nat;
  Handle : Message -> World -> World * option error
}.

Record messageEnvelope := {
  env_ctx : context;
  msg : Message;
  sync : bool
}.

(** The [bus] struct.  [messages] is the buffered channel (capacity 100)
    with [closed] its closed flag; [cancelled] records [b.cancel()]. *)
Record bus := {
  subscribers : gmap string (list MessageHandler);
  messages : list messageEnvelope;
  closed : bool;
  cancelled : bool;
  started : bool
}.

Definition capacity : nat := 100.

Definition NewBus : bus :=
  {| subscribers := ∅; messages := []; closed := false;
     cancelled := false; started := false |}.

Definition set_subscribers (b : bus) (s : gmap string (list MessageHandler)) : bus :=
  {| subscribers := s; messages := messages b; closed := closed b;
     cancelled := cancelled b; started := started b |}.

Definition set_messages (b : bus) (q : list messageEnvelope) : bus :=
  {| subscribers := subscribers b; messages := q; closed := closed b;
     cancelled := cancelled b; started := started b |}.

(** ** Subscribe / Unsubscribe *)

(** [b.subscribers[pattern] = append(b.subscribers[pattern], handler)];
    a missing pattern reads as the nil slice. *)
Definition Subscribe (b : bus) (pattern : string) (handler : MessageHandler)
  : option error * bus :=
  (None, set_subscribers b
           (<[pattern := default [] (subscribers b !! pattern) ++ [handler]]>
              (subscribers b))).

(** Drops the first handler whose pointer prints like [handler]'s. *)
Fixpoint remove_first (a : nat) (hs : list MessageHandler) : option (list MessageHandler) :=
  match hs with
  | [] => None
  | h :: rest =>
      if Nat.eqb (h_addr h) a then Some rest
      else option_map (cons h) (remove_first a rest)
  end.

Definition Unsubscribe (b : bus) (pattern : string) (handler : MessageHandler)
  : option error * bus :=
  match remove_first (h_addr handler) (default [] (subscribers b !! pattern)) with
  | Some hs => (None, set_subscribers b (<[pattern := hs]> (subscribers b)))
  | None => (None, b)
  end.

(** ** getHandlers *)

(** The three [if xs, ok := b.subscribers[k]; ok { append }] blocks. *)
Definition append_if_present (acc : list MessageHandler)
    (entry : option (list MessageHandler)) : list MessageHandler :=
  match entry with
  | Some hs => acc ++ hs
  | None => acc
  end.

Definition getHandlers (b : bus) (m : Message) : list MessageHandler :=
  let handlers := [] in
  let handlers := append_if_present handlers (subscribers b !! Slug m) in
  let handlers := append_if_present handlers (subscribers b !! Type_ m) in
  let handlers := append_if_present handlers (subscribers b !! "*") in
  handlers.

(** ** Lifecycle *)

Definition Start (b : bus) : option error * bus :=
  if started b then (Some ErrAlreadyStarted, b)
  else (None, {| subscribers := subscribers b; messages := messages b;
                 closed := closed b; cancelled := cancelled b;
                 started := true |}).

(** [Stop].  After the guard it cancels, closes the channel (closing a
    closed channel panics) and waits for the workers or for [ctx].
    [workers_first] says which case of the final [select] wins when the
    caller's context is already done. *)
Definition Stop (b : bus) (ctx : context) (workers_first : bool)
  : outcome (option error) * bus :=
  if negb (started b) then (Returns None, b)
  else
    let b1 := {| subscribers := subscribers b; messages := messages b;
                 closed := closed b; cancelled := true;
                 started := started b |} in
    if closed b1 then (Panics "close of closed channel", b1)
    else
      let b2 := {| subscribers := subscribers b1; messages := messages b1;
                   closed := true; cancelled := cancelled b1;
                   started := started b1 |} in
      match ctx with
      | CtxLive => (Returns None, b2)
      | CtxDone e => (Returns (if workers_first then None else Some e), b2)
      end.

(** ** Publish *)

(** [select { case b.messages <- envelope: ...; case <-ctx.Done(): ... }].
    A send on a closed channel is a case that can proceed (it panics); a
    send on an open channel can proceed when the buffer has room.  When
    both cases can proceed the runtime picks one: [pick_send]. *)
Definition select_send (b : bus) (ctx : context) (pick_send : bool)
    (env : messageEnvelope) : outcome (option error) * bus :=
  let send_ready := closed b || (List.length (messages b) <? capacity)%nat in
  let do_send :=
    if closed b then (Panics "send on closed channel", b)
    else (Returns None, set_messages b (messages b ++ [env])) in
  match ctx with
  | CtxLive => if send_ready then do_send else (Blocks, b)
  | CtxDone e =>
      if send_ready && pick_send then do_send else (Returns (Some e), b)
  end.

Definition Publish (b : bus) (ctx : context) (pick_send : bool) (m : Message)
  : outcome (option error) * bus :=
  if negb (started b) then (Returns (Some ErrNotStarted), b)
  else
    let envelope := {| env_ctx := ctx; msg := m; sync := false |} in
    select_send b ctx pick_send envelope.

(** ** The dispatch loop *)

(** What the dispatch goroutine acts on besides the bus: the handlers'
    world, the log of [Handle] calls it made itself (a ghost field: one
    entry, the handler's pointer, per call), and the handler goroutines it
    has spawned and not waited for. *)
Record dispatch := {
  world : World;
  calls : list nat;
  spawned : list (MessageHandler * Message)
}.

(** The [for _, handler := range handlers] loop of the sync branch, with
    its [errs] slice. *)
Fixpoint handle_all (handlers : list MessageHandler) (m : Message)
    (errs : list error) (d : dispatch) : list error * dispatch :=
  match handlers with
  | [] => (errs, d)
  | handler :: rest =>
      let '(w, err) := Handle handler m (world d) in
      let d' := {| world := w; calls := calls d ++ [h_addr handler];
                   spawned := spawned d |} in
      handle_all rest m (match err with Some e => errs ++ [e] | None => errs end) d'
  end.

(** One iteration of [for envelope := range b.messages].  The second
    component is what is sent on [envelope.done], if anything. *)
Definition process_envelope (b : bus) (envelope : messageEnvelope) (d : dispatch)
  : dispatch * option (option error) :=
  let handlers := getHandlers b (msg envelope) in
  if sync envelope then
    let '(errs, d') := handle_all handlers (msg envelope) [] d in
    (d', Some (match errs with e :: _ => Some e | [] => None end))
  else
    ({| world := world d; calls := calls d;
        spawned := spawned d ++ map (fun h => (h, msg envelope)) handlers |},
     None).

(** The loop over the buffered envelopes, oldest first; the signal kept is
    the one of the last envelope. *)
Fixpoint process (b : bus) (queue : list messageEnvelope) (d : dispatch)
    (last : option (option error)) : dispatch * option (option error) :=
  match queue with
  | [] => (d, last)
  | envelope :: rest =>
      let '(d', signal) := process_envelope b envelope d in
      process b rest d' signal
  end.

(** ** PublishSync *)

(** After the envelope is queued the caller waits on [done]; the dispatch
    goroutine drains the queue up to and including that envelope and
    sends on [done].  [done_first] picks the case of the inner [select]
    when the caller's context is done as well. *)
Definition PublishSync (b : bus) (d : dispatch) (ctx : context)
    (pick_send done_first : bool) (m : Message)
  : outcome (option error) * bus * dispatch :=
  if negb (started b) then (Returns (Some ErrNotStarted), b, d)
  else
    let envelope := {| env_ctx := ctx; msg := m; sync := true |} in
    match select_send b ctx pick_send envelope with
    | (Returns None, b1) =>
        let '(d', signal) := process b1 (messages b1) d None in
        let b2 := set_messages b1 [] in
        match ctx, signal with
        | CtxLive, Some err => (Returns err, b2, d')
        | CtxLive, None => (Blocks, b2, d')
        | CtxDone e, Some err =>
            (Returns (if done_first then err else Some e), b2, d')
        | CtxDone e, None => (Returns (Some e), b2, d')
        end
    | (r, b1) => (r, b1, d)
    end.

(** ** Reference definitions for the properties *)

(** [b.subscribers[pattern]], the nil slice when the key is missing. *)
Definition handlers_under (b : bus) (pattern : string) : list MessageHandler :=
  default [] (subscribers b !! pattern).

(** The subscription calls made on a bus, in program order. *)
Inductive subscription :=
| DoSubscribe (pattern : string) (handler : MessageHandler)
| DoUnsubscribe (pattern : string) (handler : MessageHandler).

Definition apply_subscription (b : bus) (op : subscription) : bus :=
  match op with
  | DoSubscribe pattern handler => (Subscribe b pattern handler).2
  | DoUnsubscribe pattern handler => (Unsubscribe b pattern handler).2
  end.

Definition apply_subscriptions (b : bus) (ops : list subscription) : bus :=
  fold_left apply_subscription ops b.

(** The handlers subscribed under [pattern] after a history of calls, in
    subscription order: each [Subscribe] under the pattern adds one at the
    end, each [Unsubscribe] under it takes the first match out. *)
Definition replay (pattern : string) (hs : list MessageHandler)
    (op : subscription) : list MessageHandler :=
  match op with
  | DoSubscribe p handler =>
      if String.eqb p pattern then hs ++ [handler] else hs
  | DoUnsubscribe p handler =>
      if String.eqb p pattern
      then default hs (remove_first (h_addr handler) hs) else hs
  end.

Definition subscribed_under (pattern : string) (ops : list subscription)
  : list MessageHandler :=
  fold_left (replay pattern) ops [].

(** The errors a run of [handlers], one after the other from world [w],
    returns, in the order they are returned; and the world it leaves. *)
Fixpoint errors_of (handlers : list MessageHandler) (m : Message) (w : World)
  : list error :=
  match handlers with
  | [] => []
  | h :: rest =>
      match (Handle h m w).2 with
      | Some e => e :: errors_of rest m (Handle h m w).1
      | None => errors_of rest m (Handle h m w).1
      end
  end.

Fixpoint world_after (handlers : list MessageHandler) (m : Message) (w : World)
  : World :=
  match handlers with
  | [] => w
  | h :: rest => world_after rest m (Handle h m w).1
  end.

End WithWorld.

Arguments MessageHandler World : clear implicits.
Arguments subscription World : clear implicits.
Arguments bus World : clear implicits.
Arguments dispatch World : clear implicits.

(** ** A small bus to run the definitions on *)

(** Handlers over a world that counts the calls made so far. *)
Definition counting (a : nat) : MessageHandler nat :=
  {| h_addr := a; Handle := fun _ w => (S w, None) |}.

Definition failing (a : nat) (text : string) : MessageHandler nat :=
  {| h_addr := a; Handle := fun _ w => (S w, Some (ErrHandler text)) |}.

Definition user_created : Message :=
  {| MessageSlug := "user.created"; MessageType := "event"; Meta := [] |}.

Definition sample_bus : bus nat :=
  (Start
     (apply_subscriptions NewBus
        [DoSubscribe "user.created" (counting 1);
         DoSubscribe "*" (failing 2 "boom");
         DoSubscribe "event" (failing 3 "late");
         DoSubscribe "*" (counting 1)])).2.

Definition idle : dispatch nat := {| world := 0; calls := []; spawned := [] |}.

(** ** Reference definitions for sequences of calls *)

Section Sequences.
Context {World : Type}.

(** [Publish] calls one after the other, whatever each one returns. *)
Fixpoint publish_all (b : bus World) (attempts : list (context * bool * Message))
  : bus World :=
  match attempts with
  | [] => b
  | (ctx, pick_send, m) :: rest => publish_all (Publish b ctx pick_send m).2 rest
  end.



(** Some handler in the list prints the pointer [a]. *)
Definition has_addr (a : nat) (hs : list (MessageHandler World)) : bool :=
  existsb (fun h => Nat.eqb (h_addr h) a) hs.

(** The calls a program makes on a bus; for [PublishSync] the state the
    dispatch goroutine is in when the call is made. *)
Inductive bus_call :=
| CallStart
| CallStop (ctx : context) (workers_first : bool)
| CallSubscribe (pattern : string) (handler : MessageHandler World)
| CallUnsubscribe (pattern : string) (handler : MessageHandler World)
| CallPublish (ctx : context) (pick_send : bool) (m : Message)
| CallPublishSync (d : dispatch World) (ctx : context)
    (pick_send done_first : bool) (m : Message).

Definition bus_after (b : bus World) (call : bus_call) : bus World :=
  match call with
  | CallStart => (Start b).2
  | CallStop ctx workers_first => (Stop b ctx workers_first).2
  | CallSubscribe pattern handler => (Subscribe b pattern handler).2
  | CallUnsubscribe pattern handler => (Unsubscribe b pattern handler).2
  | CallPublish ctx pick_send m => (Publish b ctx pick_send m).2
  | CallPublishSync d ctx pick_send done_first m =>
      (PublishSync b d ctx pick_send done_first m).1.2
  end.

Definition bus_after_all (b : bus World) (calls : list bus_call) : bus World :=
  fold_left bus_after calls b.

End Sequences.

Arguments bus_call World : clear implicits.

(** Three async envelopes and nothing else. *)
Definition async_queue : list messageEnvelope :=
  [ {| env_ctx := CtxLive; msg := user_created; sync := false |};
    {| env_ctx := CtxLive; msg := user_created; sync := false |};
    {| env_ctx := CtxDone (ErrContext "context canceled");
       msg := user_created; sync := false |} ].

End Bus.

(* ===================================================================== *)
(** * Part II: the container ([package di]) *)
(* ===================================================================== *)

Module DI.

(** ** Errors and the ways a call can fail to produce a value *)

Inductive error :=
| ErrNoBinding (key : string)              (* "no binding found for %s" *)
| ErrNotPointer                            (* "target must be a pointer" *)
| ErrNotStruct                             (* "target must be a pointer to a struct" *)
| ErrArity                                 (* "constructor must return 1 or 2 values" *)
| ErrArg (i : nat) (cause : error)         (* "failed to resolve constructor arg %d: %w" *)
| ErrField (name : string) (cause : error) (* "failed to resolve %s: %w" *)
| ErrUser (msg : string).                  (* made by a constructor or a factory *)

(** [Err e] is Go's [(nil, err)] return.  The others do not return:
    a run-time panic, [mu.Lock()] by a goroutine that holds [mu.RLock()],
    and the recursion bound of this embedding. *)
Inductive failure :=
| Err (e : error)
| Panic (msg : string)
| Deadlock
| OutOfFuel.

Inductive result (A : Type) :=
| Ok (a : A)
| Fail (f : failure).
Arguments Ok {A} a.
Arguments Fail {A} f.

(** ** The fragment of [reflect] the container uses *)

Inductive Kind := Struct | Ptr | Interface | Func | Basic.

#[local] Set Warnings "-register-all".
Inductive rtype :=
| TStruct (name : string)
| TInterface (name : string)
| TBasic (name : string)
| TPtr (elem : rtype)
| TFunc (ins outs : list rtype).

Definition kind_of (t : rtype) : Kind :=
  match t with
  | TStruct _ => Struct
  | TInterface _ => Interface
  | TBasic _ => Basic
  | TPtr _ => Ptr
  | TFunc _ _ => Func
  end.

(** [Type.String()]. *)
Fixpoint type_string (t : rtype) : string :=
  match t with
  | TStruct n => n
  | TInterface n => n
  | TBasic n => n
  | TPtr e => String.append "*" (type_string e)
  | TFunc ins outs =>
      let fix join (ts : list rtype) : string :=
        match ts with
        | [] => ""
        | u :: rest =>
            match rest with
            | [] => type_string u
            | _ :: _ => String.append (type_string u) (String.append ", " (join rest))
            end
        end in
      String.append "func("
        (String.append (join ins)
           (String.append ")"
              match outs with
              | [] => ""
              | [_] => String.append " " (join outs)
              | _ => String.append " (" (String.append (join outs) ")")
              end))
  end.

Fixpoint rtype_eqb (t u : rtype) : bool :=
  let fix all2 (ts us : list rtype) : bool :=
    match ts, us with
    | [], [] => true
    | x :: ts', y :: us' => rtype_eqb x y && all2 ts' us'
    | _, _ => false
    end in
  match t, u with
  | TStruct a, TStruct b => String.eqb a b
  | TInterface a, TInterface b => String.eqb a b
  | TBasic a, TBasic b => String.eqb a b
  | TPtr a, TPtr b => rtype_eqb a b
  | TFunc i o, TFunc i' o' => all2 i i' && all2 o o'
  | _, _ => false
  end.

(** Addresses of struct objects. *)
Abbreviation addr := nat (only parsing).

(** Go values as the container sees them, boxed in [interface{}]. *)
Inductive value :=
| VNil                                        (* the nil interface *)
| VType (t : rtype)                           (* a [reflect.Type] *)
| VPtr (elem : rtype) (a : option addr)       (* a [*elem]: nil, or an address *)
| VData (t : rtype) (payload : Z)             (* a value of a non-pointer type; zero iff 0 *)
| VFunc (ins outs : list rtype) (code : nat)  (* a func value and the index of its body *)
| VErr (e : error).                           (* a non-nil [error] *)

(** [reflect.TypeOf]; [None] is the nil [reflect.Type]. *)
Definition TypeOf (v : value) : option rtype :=
  match v with
  | VNil => None
  | VType _ => Some (TPtr (TStruct "reflect.rtype"))
  | VPtr e _ => Some (TPtr e)
  | VData t _ => Some t
  | VFunc ins outs _ => Some (TFunc ins outs)
  | VErr _ => Some (TPtr (TStruct "errors.errorString"))
  end.

(** [reflect.TypeOf(x)] passed on as an [interface{}] argument: a nil
    [reflect.Type] arrives as the nil interface. *)
Definition reflect_TypeOf (v : value) : value :=
  match TypeOf v with
  | Some t => VType t
  | None => VNil
  end.

(** [Value.IsZero] and [Value.IsNil] of a [Value] of static type [t]
    that holds [v].  An interface is zero (nil) only when it is the nil
    interface, whatever a non-nil one holds. *)
Definition IsZero (t : rtype) (v : value) : bool :=
  match kind_of t, v with
  | _, VNil => true
  | Interface, _ => false
  | _, VPtr _ None => true
  | _, VData _ z => Z.eqb z 0
  | _, _ => false
  end.

Definition IsNil (t : rtype) (v : value) : bool :=
  match kind_of t, v with
  | _, VNil => true
  | Interface, _ => false
  | _, VPtr _ None => true
  | _, _ => false
  end.

(** One field of a struct object: what [reflect.StructField] tells about
    it, and the value it holds. *)
Record StructField := {
  Name : string;
  Type_ : rtype;
  inject : string;       (* Tag.Get("inject") *)
  Anonymous : bool;
  exported : bool;       (* CanSet() on a field reached through a pointer *)
  fvalue : value
}.

Definition set_fvalue (f : StructField) (v : value) : StructField :=
  {| Name := Name f; Type_ := Type_ f; inject := inject f;
     Anonymous := Anonymous f; exported := exported f; fvalue := v |}.

Abbreviation object := (list StructField) (only parsing).

(** ** Bindings, the container, the program state *)

Record binding := {
  concrete : value;
  factory : option nat;     (* index of the factory's body, when set *)
  shared : bool;
  tags : list string
}.

(** The container and the struct objects its values point to.  [rlocked]
    counts the [mu.RLock()] this goroutine holds. *)
Record state := {
  bindings : gmap string binding;
  singletons : gmap string value;
  rlocked : nat;
  heap : list object
}.

Definition NewContainer (h : list object) : state :=
  {| bindings := ∅; singletons := ∅; rlocked := 0; heap := h |}.

Definition set_bindings (s : state) (bs : gmap string binding) : state :=
  {| bindings := bs; singletons := singletons s;
     rlocked := rlocked s; heap := heap s |}.

Definition set_singletons (s : state) (m : gmap string value) : state :=
  {| bindings := bindings s; singletons := m;
     rlocked := rlocked s; heap := heap s |}.

Definition set_rlocked (s : state) (n : nat) : state :=
  {| bindings := bindings s; singletons := singletons s;
     rlocked := n; heap := heap s |}.

Definition set_heap (s : state) (h : list object) : state :=
  {| bindings := bindings s; singletons := singletons s;
     rlocked := rlocked s; heap := h |}.

(** [field.Set(v)] on field [i] of the object at [a]. *)
Definition set_field (s : state) (a : addr) (i : nat) (v : value) : state :=
  match heap s !! a with
  | Some obj =>
      match obj !! i with
      | Some f => set_heap s (<[a := <[i := set_fvalue f v]> obj]> (heap s))
      | None => s
      end
  | None => s
  end.

(** ** A state and failure monad *)

Definition M (A : Type) : Type := state -> result A * state.

Definition ret {A} (a : A) : M A := fun s => (Ok a, s).
Definition fail {A} (f : failure) : M A := fun s => (Fail f, s).

Definition bind {A B} (m : M A) (k : A -> M B) : M B :=
  fun s =>
    match m s with
    | (Ok a, s') => k a s'
    | (Fail f, s') => (Fail f, s')
    end.

Notation "'do' x <- m ; k" := (bind m (fun x => k))
  (at level 10, x name, m at level 100, k at level 200).

(** ** Bodies of Go functions *)

(** What a constructor or a factory may do: allocate a struct, resolve
    from the container it was handed or have it wire a struct, return.
    [New] yields the fresh pointer, [CallMake] the two results of
    [c.Make], [CallAutoWire] the error of [c.AutoWire]. *)
Inductive prog :=
| Return (results : list value)
| New (name : string) (obj : object) (k : value -> prog)
| CallMake (abstract : value) (k : value + error -> prog)
| CallAutoWire (target : value) (k : option error -> prog).

(** ** The operations *)

Section Operations.

(** The bodies of the func values of the program, by index, and the
    method-set relation "type [t] implements interface [i]". *)
Variable code : nat -> list value -> prog.
Variable implements : rtype -> rtype -> bool.

(** [Type.AssignableTo]. *)
Definition AssignableTo (t u : rtype) : bool :=
  rtype_eqb t u ||
  match u with
  | TInterface _ => implements t u
  | _ => false
  end.

(** [getKey]: a [reflect.Type] gives its own string, anything else the
    string of its dynamic type; on the nil interface [reflect.TypeOf] is
    the nil [Type] and [.String()] on it panics. *)
Definition getKey (abstract : value) : result string :=
  match abstract with
  | VType t => Ok (type_string t)
  | _ =>
      match TypeOf abstract with
      | Some t => Ok (type_string t)
      | None => Fail (Panic "invalid memory address or nil pointer dereference")
      end
  end.

(** [c.mu.Lock()]: never granted while this goroutine reads. *)
Definition lock : M unit :=
  fun s => if Nat.eqb (rlocked s) 0 then (Ok tt, s) else (Fail Deadlock, s).

(** *** Registration *)

Definition register (abstract : value) (b : binding) : M unit :=
  do _ <- lock;
  fun s =>
    match getKey abstract with
    | Ok key => (Ok tt, set_bindings s (<[key := b]> (bindings s)))
    | Fail f => (Fail f, s)
    end.

Definition Bind (abstract concrete_ : value) : M unit :=
  register abstract
    {| concrete := concrete_; factory := None; shared := false; tags := [] |}.

Definition Singleton (abstract concrete_ : value) : M unit :=
  register abstract
    {| concrete := concrete_; factory := None; shared := true; tags := [] |}.

Definition Factory (abstract : value) (factory_ : nat) : M unit :=
  register abstract
    {| concrete := VNil; factory := Some factory_; shared := false; tags := [] |}.

Definition BindTagged (abstract concrete_ : value) (tags_ : list string) : M unit :=
  register abstract
    {| concrete := concrete_; factory := None; shared := false; tags := tags_ |}.

Definition Has (abstract : value) : M bool :=
  fun s =>
    match getKey abstract with
    | Ok key => (Ok (bool_decide (is_Some (bindings s !! key))), s)
    | Fail f => (Fail f, s)
    end.

(** *** AutoWire *)

(** One iteration of the loop over the fields; [Ok tt] is the end of the
    iteration (or a [continue]), [Fail (Err _)] the [return]. *)
Definition autowire_field (make : value -> M value) (a : addr) (i : nat) : M unit :=
  fun s =>
    match heap s !! a ≫= (.!! i) with
    | None => (Fail (Panic "reflect: Field index out of range"), s)
    | Some field =>
        let tag := inject field in
        if String.eqb tag "" && negb (Anonymous field) then (Ok tt, s)
        else if negb (IsZero (Type_ field) (fvalue field)) then (Ok tt, s)
        else
          let resolve (abstractType : value) :=
            match make abstractType s with
            | (Ok instance, s1) =>
                if exported field then
                  match TypeOf instance with
                  | None => (Fail (Panic "reflect: call of reflect.Value.Type on zero Value"), s1)
                  | Some t =>
                      if AssignableTo t (Type_ field)
                      then (Ok tt, set_field s1 a i instance)
                      else (Ok tt, s1)
                  end
                else (Ok tt, s1)
            | (Fail (Err err), s1) =>
                if String.eqb tag "optional" then (Ok tt, s1)
                else (Fail (Err (ErrField (Name field) err)), s1)
            | (Fail f, s1) => (Fail f, s1)
            end in
          match Type_ field with
          | TInterface _ =>
              (* reflect.New(T).Elem().Interface() is the nil interface *)
              resolve (reflect_TypeOf VNil)
          | TPtr elem =>
              (* reflect.New(T.Elem()).Interface() is a scratch non-nil
                 *elem, of which only the type is used *)
              resolve (VType (TPtr elem))
          | _ => (Ok tt, s)
          end
    end.

Fixpoint autowire_fields (make : value -> M value) (a : addr) (idxs : list nat) : M unit :=
  match idxs with
  | [] => ret tt
  | i :: rest => do _ <- autowire_field make a i; autowire_fields make a rest
  end.

Definition AutoWire_with (make : value -> M value) (target : value) : M unit :=
  match target with
  | VPtr (TStruct _) (Some a) =>
      fun s =>
        match heap s !! a with
        | Some obj => autowire_fields make a (seq 0 (List.length obj)) s
        | None => (Fail (Panic "dangling pointer"), s)
        end
  | VPtr _ _ => fail (Err ErrNotStruct)
  | VType _ | VErr _ =>
      (* pointers to library structs: no field carries an inject tag *)
      ret tt
  | _ => fail (Err ErrNotPointer)
  end.

(** *** Running a function body *)

Fixpoint run (make : value -> M value) (p : prog) : M (list value) :=
  fun s =>
    match p with
    | Return results => (Ok results, s)
    | New name obj k =>
        run make (k (VPtr (TStruct name) (Some (List.length (heap s)))))
          (set_heap s (heap s ++ [obj]))
    | CallMake abstract k =>
        match make abstract s with
        | (Ok v, s') => run make (k (inl v)) s'
        | (Fail (Err e), s') => run make (k (inr e)) s'
        | (Fail f, s') => (Fail f, s')
        end
    | CallAutoWire target k =>
        match AutoWire_with make target s with
        | (Ok _, s') => run make (k None) s'
        | (Fail (Err e), s') => run make (k (Some e)) s'
        | (Fail f, s') => (Fail f, s')
        end
    end.

(** [b.factory(c)]: a [func(Container) (interface{}, error)]. *)
Definition call_factory (make : value -> M value) (f : nat) : M value :=
  do results <- run make (code f []);
  match results with
  | [instance; VNil] => ret instance
  | [_; VErr e] => fail (Err e)
  | _ => fail (Panic "factory: ill-typed results")
  end.

(** *** build *)

(** The [for key, value := range params] scan for argument [i].  Its
    [continue] belongs to this inner loop, so the scan only writes
    [args[i]] and falls through. *)
Definition scan_params (params : option (gmap string value)) (argType : rtype)
    (i : nat) (args : list value) : list value :=
  match params with
  | Some ps =>
      map_fold (fun key v (acc : list value) =>
                  if String.eqb key (type_string argType)
                  then <[i := v]> acc else acc) args ps
  | None => args
  end.

(** The loop that fills [args]; [i] is the index of the head of [ins]. *)
Fixpoint build_args (make : value -> M value) (params : option (gmap string value))
    (i : nat) (ins : list rtype) (args : list value) : M (list value) :=
  match ins with
  | [] => ret args
  | argType :: rest =>
      fun s =>
        let args1 := scan_params params argType i args in
        match make (VType argType) s with
        | (Ok instance, s1) =>
            build_args make params (S i) rest (<[i := instance]> args1) s1
        | (Fail (Err err), s1) => (Fail (Err (ErrArg i err)), s1)
        | (Fail f, s1) => (Fail f, s1)
        end
  end.

(** [Value.Call] checks every argument against the parameter type before
    it runs the body; a zero [Value] (from [reflect.ValueOf(nil)]) or a
    value that is not assignable panics. *)
Fixpoint args_fit (args : list value) (ins : list rtype) : bool :=
  match args, ins with
  | [], [] => true
  | v :: args', t :: ins' =>
      match TypeOf v with
      | Some tv => AssignableTo tv t && args_fit args' ins'
      | None => false
      end
  | _, _ => false
  end.

Definition Call (make : value -> M value) (fn : value) (args : list value)
  : M (list value) :=
  match fn with
  | VFunc ins outs body =>
      if args_fit args ins then
        do results <- run make (code body args);
        if Nat.eqb (List.length results) (List.length outs) then ret results
        else fail (Panic "function body: wrong number of results")
      else fail (Panic "reflect: Call using value of the wrong type")
  | _ => fail (Panic "reflect: call of reflect.Value.Call on non-func Value")
  end.

(** The tail of [build] once the constructor has produced [instance]. *)
Definition wire_result (make : value -> M value) (instance : value) : M value :=
  match TypeOf instance with
  | None => fail (Panic "invalid memory address or nil pointer dereference")
  | Some t =>
      match kind_of t with
      | Ptr => do _ <- AutoWire_with make instance; ret instance
      | _ => ret instance
      end
  end.

Definition build_with (make : value -> M value) (concrete_ : value)
    (params : option (gmap string value)) : M value :=
  match TypeOf concrete_ with
  | None => fail (Panic "invalid memory address or nil pointer dereference")
  | Some (TFunc ins outs) =>
      let NumOut := List.length outs in
      if negb (Nat.eqb NumOut 1) && negb (Nat.eqb NumOut 2)
      then fail (Err ErrArity)
      else
        do args <- build_args make params 0 ins (replicate (List.length ins) VNil);
        do results <- Call make concrete_ args;
        match results, outs with
        | [r0], _ => wire_result make r0
        | [r0; r1], [_; t1] =>
            match kind_of t1 with
            | Interface | Ptr | Func =>
                if IsNil t1 r1 then wire_result make r0
                else
                  (* results[1].Interface().(error); error values are [VErr] *)
                  match r1 with
                  | VErr e => fail (Err e)
                  | _ => fail (Panic "interface conversion: not an error")
                  end
            | _ => fail (Panic "reflect: call of reflect.Value.IsNil on a non-nillable Value")
            end
        | _, _ => fail (Panic "function body: wrong number of results")
        end
  | Some (TPtr (TStruct _)) =>
      do _ <- AutoWire_with make concrete_; ret concrete_
  | Some _ => ret concrete_
  end.

(** *** MakeWith, Make *)

(** The recursion [MakeWith -> build -> AutoWire -> Make -> MakeWith] has
    no bound in the source; [fuel] bounds the depth of nested [MakeWith]
    calls here. *)
Fixpoint MakeWith (fuel : nat) (abstract : value)
    (params : option (gmap string value)) : M value :=
  match fuel with
  | 0 => fail OutOfFuel
  | S fuel' =>
      fun s =>
        match getKey abstract with
        | Fail f => (Fail f, s)
        | Ok key =>
            match bindings s !! key with
            | None => (Fail (Err (ErrNoBinding key)), s)
            | Some b =>
                match (if shared b then singletons s !! key else None) with
                | Some instance => (Ok instance, s)
                | None =>
                    let make := fun a => MakeWith fuel' a None in
                    (do instance <-
                       match factory b with
                       | Some f => call_factory make f
                       | None => build_with make (concrete b) params
                       end;
                     if shared b then
                       do _ <- lock;
                       fun s1 =>
                         (Ok instance,
                          set_singletons s1 (<[key := instance]> (singletons s1)))
                     else ret instance) s
                end
            end
        end
  end.

Definition Make (fuel : nat) (abstract : value) : M value :=
  MakeWith fuel abstract None.

Definition AutoWire (fuel : nat) (target : value) : M unit :=
  AutoWire_with (Make fuel) target.

Definition build (fuel : nat) (concrete_ : value)
    (params : option (gmap string value)) : M value :=
  build_with (Make fuel) concrete_ params.

(** *** Tagged *)

(** The inner loop [for _, t := range b.tags] for one binding. *)
Fixpoint tagged_tags (fuel : nat) (tag key : string) (b : binding)
    (ts : list string) (instances : list value) : M (list value) :=
  match ts with
  | [] => ret instances
  | t :: rest =>
      if String.eqb t tag then
        fun s =>
          match (if shared b then singletons s !! key else None) with
          | Some instance =>
              tagged_tags fuel tag key b rest (instances ++ [instance]) s
          | None =>
              (do instance <-
                 match factory b with
                 | Some f => call_factory (Make fuel) f
                 | None => build fuel (concrete b) None
                 end;
               tagged_tags fuel tag key b rest (instances ++ [instance])) s
          end
      else tagged_tags fuel tag key b rest instances
  end.

(** The outer loop [for key, b := range c.bindings], in the order [keys]
    the runtime happens to enumerate the map. *)
Fixpoint tagged_bindings (fuel : nat) (tag : string) (keys : list string)
    (instances : list value) : M (list value) :=
  match keys with
  | [] => ret instances
  | key :: rest =>
      fun s =>
        match bindings s !! key with
        | Some b =>
            (do instances' <- tagged_tags fuel tag key b (tags b) instances;
             tagged_bindings fuel tag rest instances') s
        | None => tagged_bindings fuel tag rest instances s
        end
  end.

(** [Tagged] holds the read lock from entry to return. *)
Definition Tagged (fuel : nat) (keys : list string) (tag : string) : M (list value) :=
  fun s =>
    match tagged_bindings fuel tag keys [] (set_rlocked s (S (rlocked s))) with
    | (r, s') => (r, set_rlocked s' (Nat.pred (rlocked s')))
    end.


(** *** Reference definitions for [Tagged] *)

(** What [Tagged] does for one occurrence of the tag in the tag list of
    the binding under [key]: the cached instance of a shared binding, or a
    fresh build. *)
Definition resolve_tagged (fuel : nat) (key : string) (b : binding) : M value :=
  fun s =>
    match (if shared b then singletons s !! key else None) with
    | Some instance => (Ok instance, s)
    | None =>
        match factory b with
        | Some f => call_factory (Make fuel) f
        | None => build fuel (concrete b) None
        end s
    end.

(** One resolution after the other; the first failure ends the run. *)
Fixpoint resolve_all (fuel : nat) (occs : list (string * binding)) : M (list value) :=
  match occs with
  | [] => ret []
  | (key, b) :: rest =>
      do v <- resolve_tagged fuel key b;
      do vs <- resolve_all fuel rest;
      ret (v :: vs)
  end.

End Operations.

(** How many times [tag] is listed in [ts]. *)
Definition occurrences (tag : string) (ts : list string) : nat :=
  List.length (List.filter (fun t => String.eqb t tag) ts).

(** The bindings visited in the order [keys], each as many times as it
    lists [tag]. *)
Definition tagged_occurrences (tag : string) (keys : list string) (s : state)
  : list (string * binding) :=
  flat_map (fun key =>
              match bindings s !! key with
              | Some b => replicate (occurrences tag (tags b)) (key, b)
              | None => []
              end) keys.

(** The number of bindings whose tag list contains [tag]. *)
Definition tagged_count (tag : string) (s : state) : nat :=
  List.length
    (List.filter (fun kb : string * binding =>
                    existsb (fun t => String.eqb t tag) (tags kb.2))
       (map_to_list (bindings s))).


(** ** Reference definitions for the properties *)

(** [f'] is [f] with, at most, another value; a value that was not zero
    is the same. *)
Definition field_le (f f' : StructField) : Prop :=
  (∃ v, f' = set_fvalue f v) ∧ (IsZero (Type_ f) (fvalue f) = false → f' = f).

(** Every object is still there, field by field as [field_le] says. *)
Definition heap_le (h h' : list object) : Prop :=
  ∀ a obj, h !! a = Some obj →
    ∃ obj', h' !! a = Some obj' ∧ Forall2 field_le obj obj'.

(** What no operation of the container undoes: the bindings stay (only the
    registration calls change them), cache entries stay, and non-zero
    fields stay. *)
Definition state_le (s s' : state) : Prop :=
  bindings s' = bindings s ∧
  singletons s ⊆ singletons s' ∧
  heap_le (heap s) (heap s').

Definition mono {A} (m : M A) : Prop :=
  ∀ s r s', m s = (r, s') → state_le s s'.

(** The registration calls, to speak of "any later registration". *)
Inductive registration :=
| DoBind (abstract concrete_ : value)
| DoSingleton (abstract concrete_ : value)
| DoFactory (abstract : value) (factory_ : nat)
| DoBindTagged (abstract concrete_ : value) (tags_ : list string).

Definition apply_registration (r : registration) : M unit :=
  match r with
  | DoBind abstract concrete_ => Bind abstract concrete_
  | DoSingleton abstract concrete_ => Singleton abstract concrete_
  | DoFactory abstract factory_ => Factory abstract factory_
  | DoBindTagged abstract concrete_ tags_ => BindTagged abstract concrete_ tags_
  end.

Fixpoint apply_registrations (rs : list registration) : M unit :=
  match rs with
  | [] => ret tt
  | r :: rest => do _ <- apply_registration r; apply_registrations rest
  end.

(** ** A small program to run the definitions on *)

Module Sample.

Definition Dep : rtype := TStruct "app.Dep".
Definition Svc : rtype := TStruct "app.Svc".
Definition Logger : rtype := TInterface "app.Logger".

Definition field (name : string) (t : rtype) (tag : string) (v : value)
  : StructField :=
  {| Name := name; Type_ := t; inject := tag; Anonymous := false;
     exported := true; fvalue := v |}.

(** [0]: func NewSvc(d *Dep) *Svc { return &Svc{D: d} }
    [1]: func NewDep() *Dep { return &Dep{} }
    [2]: a factory that returns (nil, errors.New("boom")) *)
Definition code (f : nat) (args : list value) : prog :=
  match f, args with
  | 0, [d] => New "app.Svc" [field "D" (TPtr Dep) "" d] (fun p => Return [p])
  | 1, [] => New "app.Dep" [] (fun p => Return [p])
  | 2, [] => Return [VNil; VErr (ErrUser "boom")]
  | _, _ => Return []
  end.

Definition implements (t u : rtype) : bool := false.

Definition NewSvc : value := VFunc [TPtr Dep] [TPtr Svc] 0.
Definition NewDep : value := VFunc [] [TPtr Dep] 1.

(** Objects [0] and [1] are two [Dep]s.  Object [2] is
      struct { Preset *Dep `inject:"true"`; Wired *Dep `inject:"true"`;
               Maybe *Svc `inject:"optional"` }
    with [Preset] pointing to object [0].  Object [3] is
      struct { Log Logger `inject:"optional"` }
    and object [4] is struct { Needs *Svc `inject:"true"` }. *)
Definition objects : list object :=
  [ [];
    [];
    [ field "Preset" (TPtr Dep) "true" (VPtr Dep (Some 0));
      field "Wired" (TPtr Dep) "true" (VPtr Dep None);
      field "Maybe" (TPtr Svc) "optional" (VPtr Svc None) ];
    [ field "Log" Logger "optional" VNil ];
    [ field "Needs" (TPtr Svc) "true" (VPtr Svc None) ] ].

Definition dep0 : value := VPtr Dep (Some 0).
Definition dep1 : value := VPtr Dep (Some 1).
Definition handler : value := VPtr (TStruct "app.Handler") (Some 2).
Definition logging : value := VPtr (TStruct "app.Logging") (Some 3).
Definition needy : value := VPtr (TStruct "app.Needy") (Some 4).

Definition empty : state := NewContainer objects.

(** The container after [c.Bind] of the nil [*Dep] to [dep1]. *)
Definition with_dep : state := (Bind (VPtr Dep None) dep1 empty).2.

(** ... and after [c.Bind] of the nil [*Svc] to [NewSvc] on top. *)
Definition with_ctor : state := (Bind (VPtr Svc None) NewSvc with_dep).2.

(** Only the constructor bound. *)
Definition ctor_only : state := (Bind (VPtr Svc None) NewSvc empty).2.

Definition override : option (gmap string value) :=
  Some {[ "*app.Dep" := dep0 ]}.


(** Two tagged bindings, each listing the tag once: [dep1] under [*Dep]
    and the constructor [NewDep] under [*Svc]. *)
Definition tagged_once : state :=
  (BindTagged (VPtr Svc None) NewDep ["plugin"; "other"]
     (BindTagged (VPtr Dep None) dep1 ["plugin"] empty).2).2.


End Sample.

(** ** Reference definitions for further properties *)

Definition reg_abstract (r : registration) : value :=
  match r with
  | DoBind abstract _ => abstract
  | DoSingleton abstract _ => abstract
  | DoFactory abstract _ => abstract
  | DoBindTagged abstract _ _ => abstract
  end.

(** What a step may do to the container itself: keep the bindings, give
    back every read lock it took, and write the cache only under keys of
    shared bindings and only while the goroutine holds no read lock. *)
Definition cache_step (s s' : state) : Prop :=
  bindings s' = bindings s ∧
  rlocked s' = rlocked s ∧
  ∀ k, singletons s' !! k = singletons s !! k ∨
       (rlocked s = 0 ∧ ∃ b, bindings s !! k = Some b ∧ shared b = true).

Definition disciplined {A} (m : M A) : Prop :=
  ∀ s r s', m s = (r, s') → cache_step s s'.

(** The field passes the three guards of the loop in [AutoWire]: tagged
    or embedded, zero, and of interface or pointer kind. *)
Definition injectable (f : StructField) : bool :=
  negb (String.eqb (inject f) "" && negb (Anonymous f))
  && IsZero (Type_ f) (fvalue f)
  && match Type_ f with
     | TInterface _ | TPtr _ => true
     | _ => false
     end.

(** Every cached key is a bound key. *)
Definition cached_keys_bound (s : state) : Prop :=
  ∀ k v, singletons s !! k = Some v → is_Some (bindings s !! k).

(** The calls a program makes on the container. *)
Inductive operation :=
| OpRegister (r : registration)
| OpMakeWith (abstract : value) (params : option (gmap string value))
| OpAutoWire (target : value)
| OpTagged (keys : list string) (tag : string).

Definition run_operation (code : nat -> list value -> prog)
    (implements : rtype -> rtype -> bool) (fuel : nat) (s : state)
    (op : operation) : state :=
  match op with
  | OpRegister r => (apply_registration r s).2
  | OpMakeWith abstract params => (MakeWith code implements fuel abstract params s).2
  | OpAutoWire target => (AutoWire code implements fuel target s).2
  | OpTagged keys tag => (Tagged code implements fuel keys tag s).2
  end.

Definition run_operations (code : nat -> list value -> prog)
    (implements : rtype -> rtype -> bool) (fuel : nat)
    (ops : list operation) (s : state) : state :=
  fold_left (run_operation code implements fuel) ops s.

(** [n] calls of [Make] for the same abstract, one after the other. *)
Fixpoint make_times (code : nat -> list value -> prog)
    (implements : rtype -> rtype -> bool) (fuel : nat) (abstract : value)
    (n : nat) (s : state) : list (result value) * state :=
  match n with
  | 0 => ([], s)
  | S n' =>
      let '(r, s1) := Make code implements fuel abstract s in
      let '(rs, s') := make_times code implements fuel abstract n' s1 in
      (r :: rs, s')
  end.

(** ** More programs to run the definitions on *)

Module Fixtures.

(** [0]: func NewNothing() *Dep { return nil }
    [1]: func NewSvc(d *Dep) *Svc { return &Svc{D: d} }
    [2]: a factory, func(c Container) (interface{}, error)
         { return &Job{}, nil }, with
         type Job struct { Dep *Dep `inject:"true"` } *)
Definition code (f : nat) (args : list value) : prog :=
  match f, args with
  | 0, [] => Return [VPtr Sample.Dep None]
  | 1, [d] =>
      New "app.Svc" [Sample.field "D" (TPtr Sample.Dep) "" d] (fun p => Return [p])
  | 2, [] =>
      New "app.Job" [Sample.field "Dep" (TPtr Sample.Dep) "true" (VPtr Sample.Dep None)]
        (fun p => Return [p; VNil])
  | _, _ => Return []
  end.

Definition NewNothing : value := VFunc [] [TPtr Sample.Dep] 0.
Definition NewSvc : value := VFunc [TPtr Sample.Dep] [TPtr Sample.Svc] 1.

(** Object [0] is a [Dep].  Object [1] is
      struct { Name string; Dep *Dep `inject:"true"`;
               Count int `inject:"true"`; Spare *Dep }
    with [Name] and [Dep] set and the other two zero. *)
Definition objects : list object :=
  [ [];
    [ Sample.field "Name" (TBasic "string") "" (VData (TBasic "string") 7);
      Sample.field "Dep" (TPtr Sample.Dep) "true" (VPtr Sample.Dep (Some 0));
      Sample.field "Count" (TBasic "int") "true" (VData (TBasic "int") 0);
      Sample.field "Spare" (TPtr Sample.Dep) "" (VPtr Sample.Dep None) ] ].

Definition plain : value := VPtr (TStruct "app.Plain") (Some 1).

Definition empty : state := NewContainer objects.

(** [*Dep] bound with [Singleton] to object [0], [*Svc] bound with
    [BindTagged] to the constructor [NewSvc]. *)
Definition wired : state :=
  (BindTagged (VPtr Sample.Svc None) NewSvc ["plugin"]
     (Singleton (VPtr Sample.Dep None) (VPtr Sample.Dep (Some 0)) empty).2).2.

(** On top of that, the factory [2] registered for [*Job]. *)
Definition with_factory : state :=
  (Factory (VPtr (TStruct "app.Job") None) 2 wired).2.

(** Object [2] is struct { Dep *Dep `inject:"true"` } with [Dep] nil, in
    a container where [*Dep] is bound to a [Dep] value, not a pointer. *)
Definition mismatched : state :=
  (Bind (VPtr Sample.Dep None) (VData Sample.Dep 1)
     (NewContainer
        (objects ++
         [[Sample.field "Dep" (TPtr Sample.Dep) "true" (VPtr Sample.Dep None)]]))).2.

Definition job : value := VPtr (TStruct "app.Job") (Some 2).

End Fixtures.

End DI.

(* ===================================================================== *)
(** * The request context of the router ([defaultContext]) *)
(* ===================================================================== *)

Module Router.

Section WithValues.

(** The values a context carries, with Go's [nil], and the container
    handed to [NewContext]. *)
Context {V C : Type}.
Variable nil : V.

(** [defaultContext], without the HTTP request and response: [data] is
    the map of the context, [req_values] the values with string keys
    that [c.req.Context()] carries, innermost [WithValue] first. *)
Record defaultContext := {
  data : gmap string V;
  req_values : list (string * V);
  container : C
}.

(** [NewContext(w, req, container)]; [inherited] is what the incoming
    request's context carries. *)
Definition NewContext (inherited : list (string * V)) (c : C) : defaultContext :=
  {| data := ∅; req_values := inherited; container := c |}.

(** [ctx.Value(key)]: the innermost value stored under an equal key, nil
    when there is none. *)
Fixpoint Value (chain : list (string * V)) (key : string) : V :=
  match chain with
  | [] => nil
  | (k, v) :: parent => if String.eqb k key then v else Value parent key
  end.

Definition Get (c : defaultContext) (key : string) : V :=
  match data c !! key with
  | Some val => val
  | None => Value (req_values c) key
  end.

Definition Set_ (c : defaultContext) (key : string) (value : V) : defaultContext :=
  {| data := <[key := value]> (data c);
     req_values := (key, value) :: req_values c;
     container := container c |}.

Definition Container (c : defaultContext) : C := container c.

(** [Set] calls one after the other. *)
Definition set_all (c : defaultContext) (kvs : list (string * V)) : defaultContext :=
  fold_left (fun c kv => Set_ c kv.1 kv.2) kvs c.

End WithValues.

Arguments defaultContext V C : clear implicits.

End Router.

(* ===================================================================== *)
(** * Part III: properties of the bus *)
(* ===================================================================== *)

Module BusTheory.
Import Bus.

Section WithWorld.
Context {World : Type}.
Implicit Types (b : bus World) (h : MessageHandler World) (m : Message).
Implicit Types (d : dispatch World) (ops : list (subscription World)).

(** ** Matching *)

Lemma getHandlers_groups b m :
  getHandlers b m =
    handlers_under b (Slug m) ++ handlers_under b (Type_ m) ++ handlers_under b "*".
Proof.
  unfold getHandlers, handlers_under, append_if_present.
  destruct (subscribers b !! Slug m), (subscribers b !! Type_ m),
    (subscribers b !! "*"); simpl; rewrite ?app_nil_r; try reflexivity.
  by rewrite app_assoc.
Qed.

Lemma handlers_under_Subscribe b p q h :
  handlers_under (Subscribe b p h).2 q =
    if String.eqb p q then handlers_under b q ++ [h] else handlers_under b q.
Proof.
  unfold handlers_under, Subscribe; simpl.
  destruct (String.eqb_spec p q) as [->|Hne].
  - by rewrite lookup_insert_eq.
  - by rewrite lookup_insert_ne.
Qed.

Lemma handlers_under_Unsubscribe b p q h :
  handlers_under (Unsubscribe b p h).2 q =
    if String.eqb p q
    then default (handlers_under b q) (remove_first (h_addr h) (handlers_under b q))
    else handlers_under b q.
Proof.
  unfold handlers_under, Unsubscribe.
  destruct (String.eqb_spec p q) as [->|Hne].
  - destruct (remove_first _ _) eqn:E; simpl; [|done].
    by rewrite lookup_insert_eq.
  - destruct (remove_first _ _); simpl; [|done].
    by rewrite lookup_insert_ne.
Qed.

Lemma handlers_under_apply b op q :
  handlers_under (apply_subscription b op) q = replay q (handlers_under b q) op.
Proof.
  destruct op; simpl.
  - apply handlers_under_Subscribe.
  - apply handlers_under_Unsubscribe.
Qed.

Lemma handlers_under_history ops b q :
  handlers_under (apply_subscriptions b ops) q =
    fold_left (replay q) ops (handlers_under b q).
Proof.
  unfold apply_subscriptions.
  revert b; induction ops as [|op ops IH]; intros b; cbn [fold_left]; [done|].
  by rewrite IH, handlers_under_apply.
Qed.

Lemma getHandlers_history ops b m :
  getHandlers (apply_subscriptions b ops) m =
    fold_left (replay (Slug m)) ops (handlers_under b (Slug m)) ++
    fold_left (replay (Type_ m)) ops (handlers_under b (Type_ m)) ++
    fold_left (replay "*") ops (handlers_under b "*").
Proof. by rewrite getHandlers_groups, !handlers_under_history. Qed.

(** C5.  Whatever [Subscribe] and [Unsubscribe] calls were made on a new
    bus, the handlers matched for a message are the list subscribed under
    its slug, then the list subscribed under its type, then the list
    subscribed under ["*"], each in subscription order and nothing
    removed across the groups. *)
Theorem getHandlers_concatenates_slug_type_wildcard ops m :
  getHandlers (apply_subscriptions NewBus ops) m =
    subscribed_under (Slug m) ops ++
    subscribed_under (Type_ m) ops ++
    subscribed_under "*" ops.
Proof. apply getHandlers_history. Qed.

(** A handler subscribed under the slug and under ["*"] is matched twice. *)
Lemma handler_under_slug_and_wildcard_twice h m :
  Slug m ≠ "*" → Type_ m ≠ Slug m → Type_ m ≠ "*" →
  getHandlers
    (apply_subscriptions NewBus [DoSubscribe (Slug m) h; DoSubscribe "*" h]) m
  = [h; h].
Proof.
  intros H1 H2 H3.
  rewrite getHandlers_history.
  cbn [fold_left replay].
  repeat match goal with
         | |- context [String.eqb ?x ?y] =>
             destruct (String.eqb_spec x y); try congruence
         end.
  reflexivity.
Qed.

(** ** The sync branch of the dispatch loop *)

Lemma handle_all_spec hs m errs d :
  handle_all hs m errs d =
    (errs ++ errors_of hs m (world d),
     {| world := world_after hs m (world d);
        calls := calls d ++ map h_addr hs;
        spawned := spawned d |}).
Proof.
  revert errs d; induction hs as [|h hs IH]; intros errs d; simpl.
  - rewrite !app_nil_r. by destruct d.
  - destruct (Handle h m (world d)) as [w [e|]] eqn:E; rewrite IH; simpl;
      by rewrite <- !app_assoc.
Qed.

Lemma process_envelope_sync b env d :
  sync env = true →
  process_envelope b env d =
    ({| world := world_after (getHandlers b (msg env)) (msg env) (world d);
        calls := calls d ++ map h_addr (getHandlers b (msg env));
        spawned := spawned d |},
     Some (head (errors_of (getHandlers b (msg env)) (msg env) (world d)))).
Proof.
  intros Hsync. unfold process_envelope. rewrite Hsync, handle_all_spec.
  simpl. by destruct (errors_of _ _ _).
Qed.

Lemma process_snoc b q env d last :
  process b (q ++ [env]) d last = process_envelope b env (process b q d last).1.
Proof.
  revert d last; induction q as [|e q IH]; intros d last; simpl.
  - by destruct (process_envelope b env d).
  - destruct (process_envelope b e d) as [d1 s1]. apply IH.
Qed.

Lemma process_set_messages b q' q d last :
  process (set_messages b q') q d last = process b q d last.
Proof.
  revert d last; induction q as [|e q IH]; intros d last; simpl; [done|].
  change (process_envelope (set_messages b q') e d) with (process_envelope b e d).
  destruct (process_envelope b e d). apply IH.
Qed.

(** C6.  On a running bus with room in the queue and a live context,
    [PublishSync] has every matched handler called, one after the other in
    matching order, whether or not an earlier one returned an error, and
    returns the first error any of them returned (nil when none did). *)
Theorem PublishSync_calls_all_returns_first_error b d m pick_send done_first :
  started b = true →
  closed b = false →
  (List.length (messages b) < capacity)%nat →
  let hs := getHandlers b m in
  let d0 := (process b (messages b) d None).1 in
  ∃ b' d',
    PublishSync b d CtxLive pick_send done_first m
      = (Returns (head (errors_of hs m (world d0))), b', d')
    ∧ calls d' = calls d0 ++ map h_addr hs
    ∧ world d' = world_after hs m (world d0).
Proof.
  intros Hs Hc Hroom hs d0. subst hs d0.
  unfold PublishSync, select_send. rewrite Hs, Hc. cbn [negb orb].
  apply Nat.ltb_lt in Hroom. rewrite Hroom.
  rewrite process_set_messages. cbn [messages set_messages].
  rewrite process_snoc.
  rewrite process_envelope_sync by reflexivity. simpl.
  eexists _, _. split; [reflexivity|]. split; reflexivity.
Qed.

(** ** Lifecycle *)

Lemma Publish_before_Start b ctx pick m :
  started b = false → Publish b ctx pick m = (Returns (Some ErrNotStarted), b).
Proof. intros H. unfold Publish. by rewrite H. Qed.

Lemma Stop_keeps_started b ctx wf : started (Stop b ctx wf).2 = started b.
Proof.
  unfold Stop. destruct (started b) eqn:E; simpl; [|done].
  destruct (closed b); simpl; [done|]. by destruct ctx.
Qed.

Lemma Stop_returns_closed b ctx wf r b' :
  started b = true → Stop b ctx wf = (Returns r, b') →
  started b' = true ∧ closed b' = true.
Proof.
  unfold Stop. intros ->. simpl.
  destruct (closed b); [discriminate|].
  destruct ctx; intros [= _ <-]; done.
Qed.

Lemma Publish_on_stopped_bus b m pick :
  started b = true → closed b = true →
  Publish b CtxLive pick m = (Panics "send on closed channel", b).
Proof. intros Hs Hc. unfold Publish, select_send. by rewrite Hs, Hc. Qed.

(** C2.  Start a new bus, stop it (Stop returns nil), then publish: the
    started flag is still set, so the call passes the guard and sends on
    the closed channel. *)
Theorem Publish_after_Stop_panics m :
  let b1 := (Start (@NewBus World)).2 in
  let b2 := (Stop b1 CtxLive true).2 in
  (Stop b1 CtxLive true).1 = Returns None
  ∧ started b2 = true
  ∧ Publish b2 CtxLive true m = (Panics "send on closed channel", b2).
Proof. repeat split. Qed.

(** C10.  When [Stop] has returned on a started bus the started flag is
    still set and the channel is closed, so a second [Stop] passes the
    guard and closes the closed channel: a panic, not an error. *)
Theorem Stop_twice_panics b ctx wf r b' :
  started b = true →
  Stop b ctx wf = (Returns r, b') →
  started b' = true ∧
  ∀ ctx' wf', (Stop b' ctx' wf').1 = Panics "close of closed channel".
Proof.
  intros Hs HStop.
  destruct (Stop_returns_closed _ _ _ _ _ Hs HStop) as [Hs' Hc'].
  split; [done|]. intros ctx' wf'. unfold Stop. by rewrite Hs', Hc'.
Qed.

End WithWorld.

Lemma PublishSync_calls_all_returns_first_error_witness :
  started sample_bus = true ∧ closed sample_bus = false ∧
  (List.length (messages sample_bus) < capacity)%nat ∧
  ∃ b' d',
    PublishSync sample_bus idle CtxLive true true user_created
      = (Returns (Some (ErrHandler "late")), b', d')
    ∧ calls d' = [1; 3; 2; 1]
    ∧ world d' = 4.
Proof.
  split; [reflexivity|]. split; [reflexivity|]. split; [vm_compute; lia|].
  exact (PublishSync_calls_all_returns_first_error sample_bus idle user_created
           true true eq_refl eq_refl
           ltac:(vm_compute; lia)).
Defined.

Lemma Stop_twice_panics_witness :
  started (Start (@NewBus nat)).2 = true ∧
  Stop (Start (@NewBus nat)).2 CtxLive true
    = (Returns None, (Stop (Start (@NewBus nat)).2 CtxLive true).2) ∧
  started (Stop (Start (@NewBus nat)).2 CtxLive true).2 = true ∧
  ∀ ctx' wf',
    (Stop (Stop (Start (@NewBus nat)).2 CtxLive true).2 ctx' wf').1
      = Panics "close of closed channel".
Proof.
  split; [reflexivity|]. split; [reflexivity|].
  exact (Stop_twice_panics (Start (@NewBus nat)).2 CtxLive true None _
           eq_refl eq_refl).
Defined.

End BusTheory.

(* ===================================================================== *)
(** * Part IV: properties of the container *)
(* ===================================================================== *)

Module DITheory.
Import DI.

(** ** The order on states *)

Lemma field_le_refl f : field_le f f.
Proof. split; [exists (fvalue f); by destruct f | done]. Qed.

Lemma field_le_trans f1 f2 f3 : field_le f1 f2 → field_le f2 f3 → field_le f1 f3.
Proof.
  intros [[v ->] H1] [[w ->] H2]. split.
  - by exists w.
  - intros Hz. specialize (H1 Hz). rewrite H1 in H2 |- *. by apply H2.
Qed.

#[local] Instance field_le_preorder : PreOrder field_le.
Proof. split; [exact field_le_refl | exact field_le_trans]. Qed.

Lemma heap_le_refl h : heap_le h h.
Proof. intros a obj H. exists obj. split; [done|reflexivity]. Qed.

Lemma heap_le_trans h1 h2 h3 : heap_le h1 h2 → heap_le h2 h3 → heap_le h1 h3.
Proof.
  intros H12 H23 a obj H.
  destruct (H12 _ _ H) as (obj2 & H2 & Hle2).
  destruct (H23 _ _ H2) as (obj3 & H3 & Hle3).
  exists obj3. split; [done|]. by etrans.
Qed.

Lemma state_le_refl s : state_le s s.
Proof. split; [done|]. split; [done|apply heap_le_refl]. Qed.

Lemma state_le_trans s1 s2 s3 : state_le s1 s2 → state_le s2 s3 → state_le s1 s3.
Proof.
  intros (Hb1 & Hs1 & Hh1) (Hb2 & Hs2 & Hh2). split; [congruence|].
  split; [by etrans | by eapply heap_le_trans].
Qed.

#[local] Instance state_le_preorder : PreOrder state_le.
Proof. split; [exact state_le_refl | exact state_le_trans]. Qed.

Lemma state_le_set_rlocked_r s s' n : state_le s s' → state_le s (set_rlocked s' n).
Proof. by intros (? & ? & ?). Qed.

Lemma state_le_set_rlocked_l s s' n : state_le (set_rlocked s n) s' → state_le s s'.
Proof. by intros (? & ? & ?). Qed.

(** Allocation extends the heap. *)
Lemma state_le_alloc s obj : state_le s (set_heap s (heap s ++ [obj])).
Proof.
  split; [done|]. split; [done|]. intros a o H. exists o.
  split; [|reflexivity]. simpl. by apply lookup_app_l_Some.
Qed.

(** A cache entry under a key that had none. *)
Lemma state_le_store s s1 key v :
  state_le s s1 → singletons s !! key = None →
  state_le s (set_singletons s1 (<[key := v]> (singletons s1))).
Proof.
  intros (Hb & Hs & Hh) Hnone. split; [done|]. split; [|done]. simpl.
  apply map_subseteq_spec. intros k x Hk.
  destruct (decide (key = k)) as [->|Hne]; [congruence|].
  rewrite lookup_insert_ne by done. by eapply lookup_weaken.
Qed.

(** [field.Set] on a field that was zero when the call began. *)
Lemma state_le_set_field s s1 a i f v :
  state_le s s1 →
  heap s !! a ≫= (.!! i) = Some f →
  IsZero (Type_ f) (fvalue f) = true →
  state_le s (set_field s1 a i v).
Proof.
  intros (Hb & Hs & Hh) Hf Hz.
  destruct (heap s !! a) as [obj|] eqn:Ha; [simpl in Hf|done].
  destruct (Hh _ _ Ha) as (obj1 & Ha1 & Hle).
  destruct (Forall2_lookup_l _ _ _ _ _ Hle Hf) as (f1 & Hf1 & [[w ->] _]).
  unfold set_field. rewrite Ha1, Hf1.
  split; [done|]. split; [done|]. simpl. intros a' obj' Ha'.
  destruct (decide (a = a')) as [<-|Hne].
  - exists (<[i := set_fvalue (set_fvalue f w) v]> obj1). split.
    + apply list_lookup_insert_eq. by eapply lookup_lt_Some.
    + assert (obj' = obj) as -> by congruence.
      rewrite <- (list_insert_id obj i f) by done.
      apply Forall2_insert; [done|]. split; [by exists v|congruence].
  - rewrite list_lookup_insert_ne by done. by apply Hh.
Qed.

(** ** Every operation is monotone *)

Lemma mono_ret {A} (a : A) : mono (ret a).
Proof. intros s r s' [= _ <-]. reflexivity. Qed.

Lemma mono_fail {A} f : mono (@fail A f).
Proof. intros s r s' [= _ <-]. reflexivity. Qed.

Lemma mono_bind {A B} (m : M A) (k : A → M B) :
  mono m → (∀ a, mono (k a)) → mono (bind m k).
Proof.
  intros Hm Hk s r s'. unfold bind.
  destruct (m s) as [[a|f] s1] eqn:E; intros H.
  - etrans; [by eapply Hm | by eapply Hk].
  - simplify_eq. by eapply Hm.
Qed.

Lemma mono_lock : mono lock.
Proof. intros s r s'. unfold lock. case_match; intros [= _ <-]; reflexivity. Qed.

Create HintDb mono.
#[local] Hint Resolve mono_ret mono_fail mono_lock : mono.

Section Monotone.
Variable code : nat → list value → prog.
Variable implements : rtype → rtype → bool.

Section WithMake.
Variable make : value → M value.
Hypothesis make_mono : ∀ x, mono (make x).

Lemma mono_autowire_field a i : mono (autowire_field implements make a i).
Proof.
  intros s r s'. unfold autowire_field.
  destruct (heap s !! a ≫= (.!! i)) as [field|] eqn:Hf;
    [|intros [= _ <-]; reflexivity].
  destruct (String.eqb (inject field) "" && negb (Anonymous field));
    [intros [= _ <-]; reflexivity|].
  destruct (IsZero (Type_ field) (fvalue field)) eqn:Hz; simpl;
    [|intros [= _ <-]; reflexivity].
  assert (∀ x,
    match make x s with
    | (Ok instance, s1) =>
        if exported field then
          match TypeOf instance with
          | None => (Fail (Panic "reflect: call of reflect.Value.Type on zero Value"), s1)
          | Some t =>
              if AssignableTo implements t (Type_ field)
              then (Ok tt, set_field s1 a i instance)
              else (Ok tt, s1)
          end
        else (Ok tt, s1)
    | (Fail (Err err), s1) =>
        if String.eqb (inject field) "optional" then (Ok tt, s1)
        else (Fail (Err (ErrField (Name field) err)), s1)
    | (Fail f, s1) => (Fail f, s1)
    end = (r, s') → state_le s s') as Hresolve.
  { intros x. destruct (make x s) as [[v|f] s1] eqn:E;
      apply make_mono in E.
    - repeat case_match; intros [= _ <-]; try done.
      by eapply state_le_set_field.
    - repeat case_match; intros [= _ <-]; done. }
  destruct (Type_ field); try (intros [= _ <-]; reflexivity); apply Hresolve.
Qed.

Lemma mono_autowire_fields a idxs : mono (autowire_fields implements make a idxs).
Proof.
  induction idxs as [|i idxs IH]; simpl; [apply mono_ret|].
  apply mono_bind; [apply mono_autowire_field|done].
Qed.

Lemma mono_AutoWire_with target : mono (AutoWire_with implements make target).
Proof.
  unfold AutoWire_with. repeat case_match; auto with mono.
  intros s r s'. case_match; [apply mono_autowire_fields|].
  intros [= _ <-]; reflexivity.
Qed.

Lemma mono_run p : mono (run implements make p).
Proof.
  induction p as [results|name obj k IH|abstract k IH|target k IH];
    intros s r s'; simpl.
  - intros [= _ <-]. reflexivity.
  - intros H. etrans; [apply (state_le_alloc s obj)|by eapply IH].
  - destruct (make abstract s) as [[v|[e|msg| |]] s1] eqn:E; intros H;
      try (simplify_eq; by eapply make_mono).
    + etrans; [by eapply make_mono | by eapply IH].
    + etrans; [by eapply make_mono | by eapply IH].
  - destruct (AutoWire_with implements make target s) as [[v|[e|msg| |]] s1] eqn:E;
      intros H; try (simplify_eq; by eapply mono_AutoWire_with).
    + etrans; [by eapply mono_AutoWire_with | by eapply IH].
    + etrans; [by eapply mono_AutoWire_with | by eapply IH].
Qed.

Lemma mono_call_factory f : mono (call_factory code implements make f).
Proof.
  apply mono_bind; [apply mono_run|].
  intros results. repeat case_match; auto with mono.
Qed.

Lemma mono_build_args params i ins args : mono (build_args make params i ins args).
Proof.
  revert i args; induction ins as [|t ins IH]; intros i args; simpl;
    [apply mono_ret|].
  intros s r s'.
  destruct (make (VType t) s) as [[v|[e|msg| |]] s1] eqn:E; intros H;
    try (simplify_eq; by eapply make_mono).
  etrans; [by eapply make_mono | by eapply IH].
Qed.

Lemma mono_Call fn args : mono (Call code implements make fn args).
Proof.
  unfold Call. repeat case_match; auto with mono.
  apply mono_bind; [apply mono_run|]. intros; case_match; auto with mono.
Qed.

Lemma mono_wire_result instance : mono (wire_result implements make instance).
Proof.
  unfold wire_result. repeat case_match; auto with mono.
  apply mono_bind; [apply mono_AutoWire_with|auto with mono].
Qed.

Lemma mono_build_with concrete_ params :
  mono (build_with code implements make concrete_ params).
Proof.
  unfold build_with.
  destruct (TypeOf concrete_) as [[n|n|n|e|ins outs]|]; auto with mono.
  - destruct e; auto with mono.
    apply mono_bind; [apply mono_AutoWire_with|auto with mono].
  - case_match; auto with mono.
    apply mono_bind; [apply mono_build_args|]. intros args.
    apply mono_bind; [apply mono_Call|]. intros results.
    repeat case_match; auto using mono_wire_result with mono.
Qed.

End WithMake.

Lemma mono_MakeWith fuel abstract params :
  mono (MakeWith code implements fuel abstract params).
Proof.
  revert abstract params; induction fuel as [|fuel IH]; intros abstract params;
    simpl; [apply mono_fail|].
  intros s r s'.
  destruct (getKey abstract) as [key|f]; [|intros [= _ <-]; reflexivity].
  destruct (bindings s !! key) as [b|] eqn:Hb; [|intros [= _ <-]; reflexivity].
  destruct (if shared b then singletons s !! key else None) as [inst|] eqn:Hc;
    [intros [= _ <-]; reflexivity|].
  unfold bind.
  set (built := match factory b with
                | Some f => call_factory code implements (λ a, MakeWith code implements fuel a None) f
                | None => build_with code implements (λ a, MakeWith code implements fuel a None)
                            (concrete b) params
                end).
  assert (mono built) as Hbuilt.
  { subst built. destruct (factory b).
    - apply mono_call_factory. intros x; apply IH.
    - apply mono_build_with. intros x; apply IH. }
  destruct (built s) as [[instance|f] s1] eqn:E; apply Hbuilt in E;
    [|intros [= _ <-]; done].
  destruct (shared b); [|intros [= _ <-]; done].
  unfold lock. destruct (rlocked s1 =? 0)%nat; intros [= _ <-]; [|done].
  by apply state_le_store.
Qed.

Lemma mono_Make fuel abstract : mono (Make code implements fuel abstract).
Proof. apply mono_MakeWith. Qed.

Lemma mono_AutoWire fuel target : mono (AutoWire code implements fuel target).
Proof. apply mono_AutoWire_with. intros x; apply mono_Make. Qed.

Lemma mono_build fuel concrete_ params :
  mono (build code implements fuel concrete_ params).
Proof. apply mono_build_with. intros x; apply mono_Make. Qed.

End Monotone.

(** ** AutoWire leaves non-zero fields alone *)

Section Claims.
Variable code : nat → list value → prog.
Variable implements : rtype → rtype → bool.

Lemma state_le_nonzero_field s s' a (obj : object) i f :
  state_le s s' →
  heap s !! a = Some obj → obj !! i = Some f → IsZero (Type_ f) (fvalue f) = false →
  ∃ obj' : object, heap s' !! a = Some obj' ∧ obj' !! i = Some f.
Proof.
  intros (_ & _ & Hh) Ha Hi Hz.
  destruct (Hh _ _ Ha) as (obj' & Ha' & Hle). exists obj'. split; [done|].
  destruct (Forall2_lookup_l _ _ _ _ _ Hle Hi) as (f' & Hf' & [_ Hkeep]).
  by rewrite Hf', (Hkeep Hz).
Qed.

(** C8.  A field of the target struct that holds a non-zero value when
    [AutoWire] is called holds the same value when the call is over,
    however it ends and whatever is bound. *)
Theorem AutoWire_keeps_nonzero_fields fuel name a s r s' (obj : object) i f :
  heap s !! a = Some obj →
  obj !! i = Some f →
  IsZero (Type_ f) (fvalue f) = false →
  AutoWire code implements fuel (VPtr (TStruct name) (Some a)) s = (r, s') →
  ∃ obj' : object, heap s' !! a = Some obj' ∧ obj' !! i = Some f.
Proof.
  intros Ha Hi Hz Hrun.
  eapply state_le_nonzero_field; [|done..].
  by eapply mono_AutoWire.
Qed.

(** ** Shared bindings and the cache *)

Lemma register_Ok abstract b s s' :
  register abstract b s = (Ok tt, s') →
  ∃ key, getKey abstract = Ok key ∧
         s' = set_bindings s (<[key := b]> (bindings s)).
Proof.
  unfold register, bind, lock.
  destruct (rlocked s =? 0)%nat; [|discriminate].
  destruct (getKey abstract) as [key|]; [|discriminate].
  intros [= <-]. by exists key.
Qed.

Lemma apply_registration_singletons r s res s' :
  apply_registration r s = (res, s') → singletons s' = singletons s.
Proof.
  destruct r; simpl; unfold Bind, Singleton, Factory, BindTagged, register,
    bind, lock;
    destruct (rlocked s =? 0)%nat; try (intros [= _ <-]; done);
    destruct (getKey abstract); intros [= _ <-]; done.
Qed.

Lemma apply_registrations_singletons rs s res s' :
  apply_registrations rs s = (res, s') → singletons s' = singletons s.
Proof.
  revert s; induction rs as [|r rs IH]; intros s; simpl.
  - by intros [= _ <-].
  - unfold bind. destruct (apply_registration r s) as [[[]|f] s1] eqn:E;
      apply apply_registration_singletons in E.
    + intros H. apply IH in H. congruence.
    + intros [= _ <-]. done.
Qed.

(** A successful [MakeWith] on a shared binding leaves the instance it
    returns in the cache. *)
Lemma MakeWith_shared_caches fuel abstract params key b s v s' :
  getKey abstract = Ok key →
  bindings s !! key = Some b →
  shared b = true →
  MakeWith code implements fuel abstract params s = (Ok v, s') →
  singletons s' !! key = Some v.
Proof.
  intros Hkey Hb Hsh. destruct fuel as [|fuel]; simpl; [discriminate|].
  rewrite Hkey, Hb, Hsh.
  destruct (singletons s !! key) as [inst|] eqn:Hc.
  - intros [= <- <-]. done.
  - unfold bind.
    match goal with |- context [match ?m s with _ => _ end] =>
      destruct (m s) as [[instance|f] s1] end; [|discriminate].
    unfold lock. destruct (rlocked s1 =? 0)%nat; [|discriminate].
    intros [= <- <-]. simpl. apply lookup_insert_eq.
Qed.

(** With the instance in the cache, [MakeWith] on a shared binding
    returns it and changes nothing. *)
Lemma MakeWith_cached fuel abstract params key b s v :
  getKey abstract = Ok key →
  bindings s !! key = Some b →
  shared b = true →
  singletons s !! key = Some v →
  MakeWith code implements (S fuel) abstract params s = (Ok v, s).
Proof. intros Hkey Hb Hsh Hc. simpl. by rewrite Hkey, Hb, Hsh, Hc. Qed.

(** C7.  After [Singleton] registered a key, a [Make] for that key that
    succeeds stores the instance it returns in the cache, and the next
    [Make] for the key returns that same instance from the cache. *)
Theorem Singleton_Make_twice_same_instance
    abstract concrete_ abstract' fuel s0 s1 v s2 :
  Singleton abstract concrete_ s0 = (Ok tt, s1) →
  getKey abstract' = getKey abstract →
  Make code implements fuel abstract' s1 = (Ok v, s2) →
  ∃ key, getKey abstract = Ok key ∧
         singletons s2 !! key = Some v ∧
         ∀ fuel', Make code implements (S fuel') abstract' s2 = (Ok v, s2).
Proof.
  intros Hreg Hsame Hmake.
  destruct (register_Ok _ _ _ _ Hreg) as (key & Hkey & ->).
  rewrite Hkey in Hsame. exists key. split; [done|].
  pose proof (mono_MakeWith _ _ _ _ _ _ _ _ Hmake) as (Hb & _ & _).
  assert (bindings s2 !! key =
          Some {| concrete := concrete_; factory := None;
                  shared := true; tags := [] |}) as Hb2.
  { rewrite Hb. simpl. apply lookup_insert_eq. }
  assert (singletons s2 !! key = Some v) as Hc.
  { eapply MakeWith_shared_caches; [exact Hsame| | |exact Hmake];
      [simpl; apply lookup_insert_eq | reflexivity]. }
  split; [done|]. intros fuel'.
  by eapply MakeWith_cached.
Qed.

(** C3.  Once [Make] has cached instance [a] for a key registered with
    [Singleton], no registration removes or replaces the entry: after any
    registrations, and after registering the key once more with
    [Singleton] and another concrete, [Make] still returns [a]. *)
Theorem cached_singleton_survives_registration
    abstract concreteA concreteB abstract' fuel later s0 s1 a s2 s3 s4 :
  Singleton abstract concreteA s0 = (Ok tt, s1) →
  getKey abstract' = getKey abstract →
  Make code implements fuel abstract' s1 = (Ok a, s2) →
  apply_registrations later s2 = (Ok tt, s3) →
  Singleton abstract concreteB s3 = (Ok tt, s4) →
  singletons s4 = singletons s2 ∧
  ∀ fuel', Make code implements (S fuel') abstract' s4 = (Ok a, s4).
Proof.
  intros Hreg Hsame Hmake Hlater Hreg2.
  destruct (register_Ok _ _ _ _ Hreg) as (key & Hkey & ->).
  rewrite Hkey in Hsame.
  assert (singletons s2 !! key = Some a) as Hc.
  { eapply MakeWith_shared_caches; [exact Hsame| | |exact Hmake];
      [simpl; apply lookup_insert_eq | reflexivity]. }
  apply apply_registrations_singletons in Hlater.
  destruct (register_Ok _ _ _ _ Hreg2) as (key' & Hkey' & ->).
  assert (key' = key) as -> by congruence.
  split; [simpl; congruence|]. intros fuel'.
  eapply MakeWith_cached; [exact Hsame| | |];
    [simpl; apply lookup_insert_eq | reflexivity | simpl; congruence].
Qed.

(** ** Parameter overrides *)

(** Whatever the scan over [params] wrote at index [i] is overwritten by
    the assignment that follows the [Make] call. *)
Lemma scan_params_overwritten params argType i args x :
  <[i := x]> (scan_params params argType i args) = <[i := x]> args.
Proof.
  destruct params as [ps|]; simpl; [|done].
  apply (map_fold_weak_ind (λ acc _, <[i := x]> acc = <[i := x]> args)); [done|].
  intros key v m acc _ IH. case_match; [|done].
  by rewrite list_insert_insert_eq.
Qed.

Lemma build_args_params_unused make params i ins args s :
  build_args make params i ins args s = build_args make None i ins args s.
Proof.
  revert i args s; induction ins as [|t ins IH]; intros i args s; simpl; [done|].
  destruct (make (VType t) s) as [[v|f] s1]; [|done].
  by rewrite scan_params_overwritten, IH.
Qed.

Lemma build_with_params_unused make concrete_ params s :
  build_with code implements make concrete_ params s =
  build_with code implements make concrete_ None s.
Proof.
  unfold build_with. destruct (TypeOf concrete_) as [[]|]; try done.
  case_match; [done|]. unfold bind. by rewrite build_args_params_unused.
Qed.

(** No [params] map changes what [MakeWith] does. *)
Lemma MakeWith_params_unused fuel abstract params s :
  MakeWith code implements fuel abstract params s =
  MakeWith code implements fuel abstract None s.
Proof.
  destruct fuel as [|fuel]; simpl; [done|].
  destruct (getKey abstract) as [key|]; [|done].
  destruct (bindings s !! key) as [b|]; [|done].
  destruct (if shared b then singletons s !! key else None); [done|].
  unfold bind. destruct (factory b); [done|].
  by rewrite build_with_params_unused.
Qed.

(** ** Optional and required fields *)

(** A zero pointer field with an inject tag whose type has no binding:
    the iteration ends without error when the tag is "optional", and
    [AutoWire] returns the wrapped error otherwise.  The state is the
    same in both cases. *)
Lemma autowire_field_unbound_pointer fuel a i f elem s :
  heap s !! a ≫= (.!! i) = Some f →
  inject f ≠ "" →
  IsZero (Type_ f) (fvalue f) = true →
  Type_ f = TPtr elem →
  bindings s !! type_string (TPtr elem) = None →
  autowire_field implements (Make code implements (S fuel)) a i s =
    if String.eqb (inject f) "optional" then (Ok tt, s)
    else (Fail (Err (ErrField (Name f) (ErrNoBinding (type_string (TPtr elem))))), s).
Proof.
  intros Hf Htag Hz Hty Hnone. unfold autowire_field. rewrite Hf.
  apply String.eqb_neq in Htag. rewrite Htag, Hz, Hty.
  cbn [andb negb]. unfold Make. cbn [MakeWith getKey]. by rewrite Hnone.
Qed.

(** A zero interface field with an inject tag: [getKey] is reached with
    the nil interface and panics, whatever the tag says. *)
Lemma autowire_field_interface_panics fuel a i f name s :
  heap s !! a ≫= (.!! i) = Some f →
  inject f ≠ "" →
  IsZero (Type_ f) (fvalue f) = true →
  Type_ f = TInterface name →
  autowire_field implements (Make code implements (S fuel)) a i s =
    (Fail (Panic "invalid memory address or nil pointer dereference"), s).
Proof.
  intros Hf Htag Hz Hty. unfold autowire_field. rewrite Hf.
  apply String.eqb_neq in Htag. by rewrite Htag, Hz, Hty.
Qed.

(** ** Tagged *)

Lemma mono_resolve_tagged fuel key b :
  mono (resolve_tagged code implements fuel key b).
Proof.
  intros s r s'. unfold resolve_tagged.
  destruct (if shared b then singletons s !! key else None);
    [intros [= _ <-]; reflexivity|].
  destruct (factory b).
  - apply mono_call_factory. intros x; apply mono_Make.
  - apply mono_build.
Qed.

Lemma mono_resolve_all fuel occs : mono (resolve_all code implements fuel occs).
Proof.
  induction occs as [|[key b] occs IH]; simpl; [apply mono_ret|].
  apply mono_bind; [apply mono_resolve_tagged|]. intros v.
  apply mono_bind; [exact IH|]. intros vs. apply mono_ret.
Qed.


Lemma resolve_all_app fuel occs1 occs2 s :
  resolve_all code implements fuel (occs1 ++ occs2) s =
    match resolve_all code implements fuel occs1 s with
    | (Ok l1, s1) =>
        match resolve_all code implements fuel occs2 s1 with
        | (Ok l2, s2) => (Ok (l1 ++ l2), s2)
        | (Fail f, s2) => (Fail f, s2)
        end
    | (Fail f, s1) => (Fail f, s1)
    end.
Proof.
  revert s; induction occs1 as [|[key b] occs1 IH]; intros s; simpl.
  - unfold ret. by destruct (resolve_all _ _ _ occs2 s) as [[l2|f] s2].
  - unfold bind, ret.
    destruct (resolve_tagged _ _ _ _ _ s) as [[v|f] s1]; [|done].
    rewrite IH.
    destruct (resolve_all _ _ _ occs1 s1) as [[l1|f] s2]; [|done].
    by destruct (resolve_all _ _ _ occs2 s2) as [[l2|f] s3].
Qed.

(** The loop over the tag list resolves the binding once for each time
    the tag is listed. *)
Lemma tagged_tags_spec fuel tag key b ts acc s :
  tagged_tags code implements fuel tag key b ts acc s =
    match resolve_all code implements fuel
            (replicate (occurrences tag ts) (key, b)) s with
    | (Ok l, s') => (Ok (acc ++ l), s')
    | (Fail f, s') => (Fail f, s')
    end.
Proof.
  revert acc s; induction ts as [|t ts IH]; intros acc s.
  - simpl. unfold ret. by rewrite app_nil_r.
  - unfold occurrences. cbn [tagged_tags List.filter].
    destruct (String.eqb t tag); [|apply IH].
    cbn [List.length replicate resolve_all]. unfold bind, ret, resolve_tagged.
    destruct (if shared b then singletons s !! key else None) as [inst|].
    + rewrite IH. fold (occurrences tag ts).
      destruct (resolve_all _ _ _ _ s) as [[l|f] s1]; [|done].
      by rewrite <- app_assoc.
    + match goal with |- context [match ?m s with _ => _ end] =>
        destruct (m s) as [[inst|f] s1] end; [|done].
      rewrite IH. fold (occurrences tag ts).
      destruct (resolve_all _ _ _ _ s1) as [[l|f] s2]; [|done].
      by rewrite <- app_assoc.
Qed.

Lemma tagged_occurrences_bindings tag keys s s' :
  bindings s' = bindings s →
  tagged_occurrences tag keys s' = tagged_occurrences tag keys s.
Proof. intros H. unfold tagged_occurrences. by rewrite H. Qed.

Lemma tagged_bindings_spec fuel tag keys acc s :
  tagged_bindings code implements fuel tag keys acc s =
    match resolve_all code implements fuel (tagged_occurrences tag keys s) s with
    | (Ok l, s') => (Ok (acc ++ l), s')
    | (Fail f, s') => (Fail f, s')
    end.
Proof.
  revert acc s; induction keys as [|key keys IH]; intros acc s.
  - simpl. unfold ret. by rewrite app_nil_r.
  - cbn [tagged_bindings tagged_occurrences flat_map].
    fold (tagged_occurrences tag keys s).
    destruct (bindings s !! key) as [b|] eqn:Hb; [|apply IH].
    unfold bind. rewrite tagged_tags_spec, resolve_all_app.
    destruct (resolve_all _ _ _ (replicate _ _) s) as [[l1|f] s1] eqn:E; [|done].
    apply mono_resolve_all in E. destruct E as (Hbs & _ & _).
    rewrite IH, (tagged_occurrences_bindings _ _ _ _ Hbs).
    destruct (resolve_all _ _ _ _ s1) as [[l2|f] s2]; [|done].
    by rewrite app_assoc.
Qed.

Lemma Tagged_spec fuel keys tag s :
  Tagged code implements fuel keys tag s =
    match resolve_all code implements fuel (tagged_occurrences tag keys s)
            (set_rlocked s (S (rlocked s))) with
    | (r, s') => (r, set_rlocked s' (Nat.pred (rlocked s')))
    end.
Proof.
  unfold Tagged. rewrite tagged_bindings_spec.
  change (tagged_occurrences tag keys (set_rlocked s (S (rlocked s))))
    with (tagged_occurrences tag keys s).
  by destruct (resolve_all _ _ _ _ _) as [[l|f] s1].
Qed.





End Claims.

(** ** The definitions at work on the sample program *)

Lemma AutoWire_keeps_nonzero_fields_witness :
  ∃ obj' : object,
    heap (AutoWire Sample.code Sample.implements 2 Sample.handler
            Sample.with_dep).2 !! 2 = Some obj' ∧
    obj' !! 0 = Some (Sample.field "Preset" (TPtr Sample.Dep) "true" Sample.dep0).
Proof.
  apply (AutoWire_keeps_nonzero_fields Sample.code Sample.implements 2
           "app.Handler" 2 Sample.with_dep
           (AutoWire Sample.code Sample.implements 2 Sample.handler
              Sample.with_dep).1 _
           (default [] (Sample.objects !! 2)) 0 _);
    [reflexivity | reflexivity | reflexivity | apply surjective_pairing].
Defined.

(** The run behind the witness: the zero field [Wired] receives the bound
    [Dep], [Preset] keeps its own, and the optional [Maybe], whose type is
    not bound, stays nil without an error. *)
Example AutoWire_sample_run :
  let r := AutoWire Sample.code Sample.implements 2 Sample.handler Sample.with_dep in
  r.1 = Ok tt ∧
  heap r.2 !! 2 =
    Some [ Sample.field "Preset" (TPtr Sample.Dep) "true" Sample.dep0;
           Sample.field "Wired" (TPtr Sample.Dep) "true" Sample.dep1;
           Sample.field "Maybe" (TPtr Sample.Svc) "optional" (VPtr Sample.Svc None) ].
Proof. split; vm_compute; reflexivity. Qed.

Lemma Singleton_Make_twice_same_instance_witness :
  let s1 := (Singleton (VPtr Sample.Svc None) Sample.NewSvc Sample.with_dep).2 in
  let r := Make Sample.code Sample.implements 3 (VType (TPtr Sample.Svc)) s1 in
  r.1 = Ok (VPtr Sample.Svc (Some 5)) ∧
  ∃ key, getKey (VPtr Sample.Svc None) = Ok key ∧
         singletons r.2 !! key = Some (VPtr Sample.Svc (Some 5)) ∧
         ∀ fuel', Make Sample.code Sample.implements (S fuel')
                    (VType (TPtr Sample.Svc)) r.2
                  = (Ok (VPtr Sample.Svc (Some 5)), r.2).
Proof.
  split; [vm_compute; reflexivity|].
  apply (Singleton_Make_twice_same_instance Sample.code Sample.implements
           (VPtr Sample.Svc None) Sample.NewSvc (VType (TPtr Sample.Svc)) 3
           Sample.with_dep
           (Singleton (VPtr Sample.Svc None) Sample.NewSvc Sample.with_dep).2
           (VPtr Sample.Svc (Some 5))
           (Make Sample.code Sample.implements 3 (VType (TPtr Sample.Svc))
              (Singleton (VPtr Sample.Svc None) Sample.NewSvc Sample.with_dep).2).2);
    [vm_compute; reflexivity | reflexivity | vm_compute; reflexivity].
Defined.

Lemma cached_singleton_survives_registration_witness :
  let later := [DoBind (VPtr Sample.Dep None) Sample.dep0;
                DoFactory (VPtr Sample.Svc None) 2] in
  let s1 := (Singleton (VPtr Sample.Svc None) Sample.NewSvc Sample.with_dep).2 in
  let s2 := (Make Sample.code Sample.implements 3 (VType (TPtr Sample.Svc)) s1).2 in
  let s3 := (apply_registrations later s2).2 in
  let s4 := (Singleton (VPtr Sample.Svc None) Sample.needy s3).2 in
  singletons s4 = singletons s2 ∧
  ∀ fuel', Make Sample.code Sample.implements (S fuel')
             (VType (TPtr Sample.Svc)) s4
           = (Ok (VPtr Sample.Svc (Some 5)), s4).
Proof.
  intros later s1 s2 s3 s4.
  apply (cached_singleton_survives_registration Sample.code Sample.implements
           (VPtr Sample.Svc None) Sample.NewSvc Sample.needy
           (VType (TPtr Sample.Svc)) 3 later
           Sample.with_dep s1 (VPtr Sample.Svc (Some 5)) s2 s3 s4);
    [vm_compute; reflexivity | reflexivity | vm_compute; reflexivity
    | vm_compute; reflexivity | vm_compute; reflexivity].
Defined.



(** Two tagged bindings that list the tag once each: two instances, the
    second one built by its constructor. *)
Example Tagged_sample_run :
  (Tagged Sample.code Sample.implements 2 ["*app.Dep"; "*app.Svc"] "plugin"
     Sample.tagged_once).1 = Ok [Sample.dep1; VPtr Sample.Dep (Some 5)].
Proof. vm_compute; reflexivity. Qed.

(** C1.  [NewSvc] takes a [*Dep]; [MakeWith] is given an override for
    ["*app.Dep"].  With no binding for [*Dep] the call fails although the
    override is there; with [*Dep] bound to another object the constructor
    receives the bound object (address 1), not the override (address 0). *)
Theorem MakeWith_override_is_not_used :
  (MakeWith Sample.code Sample.implements 3 (VType (TPtr Sample.Svc))
     Sample.override Sample.ctor_only).1
    = Fail (Err (ErrArg 0 (ErrNoBinding "*app.Dep")))
  ∧
  let r := MakeWith Sample.code Sample.implements 3 (VType (TPtr Sample.Svc))
             Sample.override Sample.with_ctor in
  r.1 = Ok (VPtr Sample.Svc (Some 5)) ∧
  heap r.2 !! 5 = Some [Sample.field "D" (TPtr Sample.Dep) "" Sample.dep1].
Proof. repeat split; vm_compute; reflexivity. Qed.

(** C9.  [AutoWire] on a struct whose only field is an interface tagged
    optional, in a container with no binding at all: the call panics. *)
Theorem AutoWire_optional_interface_field_panics fuel :
  (AutoWire Sample.code Sample.implements (S fuel) Sample.logging Sample.empty).1
    = Fail (Panic "invalid memory address or nil pointer dereference").
Proof. reflexivity. Qed.

(** The same call on pointer fields: the optional one is skipped, the
    required one fails the call. *)
Example AutoWire_optional_pointer_field :
  AutoWire Sample.code Sample.implements 1 Sample.handler Sample.with_dep
    = (Ok tt, (AutoWire Sample.code Sample.implements 1 Sample.handler
                 Sample.with_dep).2)
  ∧ (AutoWire Sample.code Sample.implements 1 Sample.needy Sample.empty)
    = (Fail (Err (ErrField "Needs" (ErrNoBinding "*app.Svc"))), Sample.empty).
Proof. split; vm_compute; reflexivity. Qed.

End DITheory.

(* ===================================================================== *)
(** * Part V: more properties of the bus *)
(* ===================================================================== *)

Module BusExtra.
Import Bus BusTheory.

Section WithWorld.
Context {World : Type}.
Implicit Types (b : bus World) (h : MessageHandler World) (m : Message).
Implicit Types (d : dispatch World) (q : list messageEnvelope).

(** ** Lifecycle *)

(** A bus that was started cannot be started again, not even after it was
    stopped: [Start] fails and changes nothing. *)
Theorem Start_never_restarts b ctx wf :
  let stopped := (Stop (Start b).2 ctx wf).2 in
  Start (Start b).2 = (Some ErrAlreadyStarted, (Start b).2) ∧
  Start stopped = (Some ErrAlreadyStarted, stopped).
Proof.
  assert (started (Start b).2 = true) as Hs.
  { unfold Start. by destruct (started b) eqn:E. }
  split.
  - unfold Start at 1. by rewrite Hs.
  - unfold Start at 1. by rewrite Stop_keeps_started, Hs.
Qed.

(** ** The queue *)

Lemma Publish_step b ctx pick m :
  (Publish b ctx pick m).2 = b ∨
  ((Publish b ctx pick m).2
     = set_messages b (messages b ++ [{| env_ctx := ctx; msg := m; sync := false |}])
   ∧ (List.length (messages b) < capacity)%nat).
Proof.
  unfold Publish, select_send.
  destruct (started b); [|by left]. cbn [negb].
  destruct (closed b) eqn:Hc; cbn [orb].
  - destruct ctx as [|e]; [by left|]. destruct pick; by left.
  - destruct (List.length (messages b) <? capacity)%nat eqn:Hroom.
    + apply Nat.ltb_lt in Hroom.
      destruct ctx as [|e]; [by right|]. destruct pick; [by right|by left].
    + destruct ctx as [|e]; by left.
Qed.

(** Whatever [Publish] calls are made, with whatever contexts, the queue
    never holds more than [capacity] envelopes; what was queued stays, in
    its order, ahead of what was added; only async envelopes are added;
    and the subscriptions and the flags are not touched. *)
Theorem Publish_keeps_queue_bounded b attempts :
  (List.length (messages b) ≤ capacity)%nat →
  let b' := publish_all b attempts in
  (List.length (messages b') ≤ capacity)%nat ∧
  (∃ added, messages b' = messages b ++ added ∧
            Forall (λ envelope, sync envelope = false) added ∧
            (List.length added ≤ List.length attempts)%nat) ∧
  subscribers b' = subscribers b ∧
  started b' = started b ∧ closed b' = closed b.
Proof.
  revert b; induction attempts as [|[[ctx pick] m] rest IH]; intros b Hlen; simpl.
  - split; [done|]. split; [|done]. exists []. by rewrite app_nil_r.
  - destruct (Publish_step b ctx pick m) as [->|[-> Hroom]].
    + destruct (IH b Hlen) as (Hb & (added & Hq & Hasync & Hn) & Hrest).
      split; [done|]. split; [|done]. exists added. repeat split; try done. lia.
    + set (b1 := set_messages b _).
      assert (List.length (messages b1) ≤ capacity)%nat as Hlen1.
      { subst b1. simpl. rewrite length_app. simpl. lia. }
      destruct (IH b1 Hlen1) as (Hb & (added & Hq & Hasync & Hn) & Hrest).
      split; [done|]. split; [|done].
      exists ({| env_ctx := ctx; msg := m; sync := false |} :: added).
      split; [|split].
      * rewrite Hq. subst b1. simpl. by rewrite <- app_assoc.
      * by constructor.
      * simpl. lia.
Qed.

(** ** Dispatch *)

Lemma process_envelope_async b env d :
  sync env = false →
  process_envelope b env d =
    ({| world := world d; calls := calls d;
        spawned := spawned d ++
                   map (λ h, (h, msg env)) (getHandlers b (msg env)) |},
     None).
Proof. intros H. unfold process_envelope. by rewrite H. Qed.


(** For envelopes published with [Publish] the dispatch loop runs no
    handler itself: the world and its call log are as before, and nothing
    is sent on a completion channel. *)
Theorem process_async_runs_no_handler b q d :
  forallb (λ envelope, negb (sync envelope)) q = true →
  world (process b q d None).1 = world d ∧
  calls (process b q d None).1 = calls d ∧
  (process b q d None).2 = None.
Proof.
  revert d; induction q as [|env q IH]; intros d Hq; simpl in *; [done|].
  apply andb_prop in Hq as [Henv Hq]. apply negb_true_iff in Henv.
  rewrite process_envelope_async by done.
  destruct (IH {| world := world d; calls := calls d;
                  spawned := spawned d ++
                             map (λ h, (h, msg env)) (getHandlers b (msg env)) |} Hq)
    as (Hw & Hc & Hsig).
  by rewrite Hw, Hc, Hsig.
Qed.

(** ** Unsubscribe *)

Lemma remove_first_absent a (hs : list (MessageHandler World)) :
  has_addr a hs = false → remove_first a hs = None.
Proof.
  unfold has_addr. induction hs as [|h hs IH]; simpl; [done|].
  destruct (h_addr h =? a)%nat; simpl; [done|]. intros H. by rewrite IH.
Qed.

Lemma remove_first_present a (hs : list (MessageHandler World)) :
  has_addr a hs = true →
  ∃ hs', remove_first a hs = Some hs' ∧ S (List.length hs') = List.length hs.
Proof.
  unfold has_addr. induction hs as [|h hs IH]; simpl; [done|].
  destruct (h_addr h =? a)%nat; simpl; [by exists hs|].
  intros H. destruct (IH H) as (hs' & -> & Hlen). exists (h :: hs').
  simpl. by rewrite Hlen.
Qed.

Lemma remove_first_last a (hs : list (MessageHandler World)) h :
  has_addr a hs = false → h_addr h = a →
  remove_first a (hs ++ [h]) = Some hs.
Proof.
  unfold has_addr. intros Habs Hh. induction hs as [|h' hs IH]; simpl in *.
  - by rewrite Hh, Nat.eqb_refl.
  - destruct (h_addr h' =? a)%nat; simpl in *; [done|]. by rewrite IH.
Qed.

(** [Unsubscribe] takes at most one subscription away, under the pattern
    given and only of a handler with the pointer given; under every other
    pattern the list is the same; and with no such handler under the
    pattern the bus does not change. *)
Theorem Unsubscribe_removes_at_most_one b p h :
  let b' := (Unsubscribe b p h).2 in
  (∀ other, other ≠ p → handlers_under b' other = handlers_under b other) ∧
  List.length (handlers_under b' p)
    + (if has_addr (h_addr h) (handlers_under b p) then 1 else 0)
    = List.length (handlers_under b p) ∧
  (has_addr (h_addr h) (handlers_under b p) = false → b' = b).
Proof.
  split; [|split].
  - intros other Hne. rewrite handlers_under_Unsubscribe.
    destruct (String.eqb_spec p other); [congruence|done].
  - rewrite handlers_under_Unsubscribe, String.eqb_refl.
    destruct (has_addr _ _) eqn:E.
    + destruct (remove_first_present _ _ E) as (hs' & -> & Hlen). simpl. lia.
    + rewrite (remove_first_absent _ _ E). simpl. lia.
  - intros E. unfold Unsubscribe.
    change (default [] (subscribers b !! p)) with (handlers_under b p).
    by rewrite (remove_first_absent _ _ E).
Qed.

(** Subscribing a handler under a pattern that holds no handler with its
    pointer, then unsubscribing it, leaves every message with the
    handlers it was matched with before. *)
Theorem Subscribe_then_Unsubscribe b p h m :
  has_addr (h_addr h) (handlers_under b p) = false →
  getHandlers (Unsubscribe (Subscribe b p h).2 p h).2 m = getHandlers b m.
Proof.
  intros Habs.
  assert (∀ other, handlers_under (Unsubscribe (Subscribe b p h).2 p h).2 other
                   = handlers_under b other) as Hsame.
  { intros other. rewrite handlers_under_Unsubscribe, handlers_under_Subscribe.
    destruct (String.eqb_spec p other) as [<-|]; [|done].
    by rewrite remove_first_last. }
  by rewrite !getHandlers_groups, !Hsame.
Qed.

End WithWorld.

Lemma Publish_keeps_queue_bounded_witness :
  let attempts := [(CtxLive, true, user_created);
                   (CtxDone (ErrContext "context canceled"), false, user_created);
                   (CtxLive, false, user_created)] in
  (List.length (messages (publish_all sample_bus attempts)) ≤ capacity)%nat ∧
  (∃ added, messages (publish_all sample_bus attempts)
              = messages sample_bus ++ added ∧
            Forall (λ envelope, sync envelope = false) added ∧
            (List.length added ≤ List.length attempts)%nat) ∧
  subscribers (publish_all sample_bus attempts) = subscribers sample_bus ∧
  started (publish_all sample_bus attempts) = started sample_bus ∧
  closed (publish_all sample_bus attempts) = closed sample_bus.
Proof.
  intros attempts.
  apply (Publish_keeps_queue_bounded sample_bus attempts).
  vm_compute. lia.
Defined.

Lemma process_async_runs_no_handler_witness :
  world (process sample_bus async_queue idle None).1 = 0 ∧
  calls (process sample_bus async_queue idle None).1 = [] ∧
  (process sample_bus async_queue idle None).2 = None.
Proof.
  apply (process_async_runs_no_handler sample_bus async_queue idle).
  reflexivity.
Defined.

Lemma Subscribe_then_Unsubscribe_witness :
  getHandlers
    (Unsubscribe (Subscribe sample_bus "event" (counting 7)).2
       "event" (counting 7)).2 user_created
  = getHandlers sample_bus user_created.
Proof.
  apply (Subscribe_then_Unsubscribe sample_bus "event" (counting 7) user_created).
  vm_compute. reflexivity.
Defined.

(** ** After Stop *)

Section Stopped.
Context {World : Type}.

Lemma bus_after_stopped (b : bus World) call :
  started b = true → closed b = true →
  started (bus_after b call) = true ∧
  closed (bus_after b call) = true ∧
  messages (bus_after b call) = messages b.
Proof.
  intros Hs Hc. destruct call; simpl.
  - unfold Start. by rewrite Hs.
  - unfold Stop. by rewrite Hs, Hc.
  - done.
  - unfold Unsubscribe. by destruct (remove_first _ _).
  - unfold Publish, select_send. rewrite Hs, Hc. simpl.
    destruct ctx; [done|]. by destruct pick_send.
  - unfold PublishSync, select_send. rewrite Hs, Hc. simpl.
    destruct ctx; [done|]. by destruct pick_send.
Qed.

(** Once [Stop] has closed the channel of a started bus, no call opens it
    again, clears the started flag or adds an envelope to the queue:
    what was queued at that moment is all the dispatch loop will ever
    see. *)
Theorem stopped_bus_accepts_nothing (b : bus World) calls :
  started b = true → closed b = true →
  let b' := bus_after_all b calls in
  started b' = true ∧ closed b' = true ∧ messages b' = messages b.
Proof.
  unfold bus_after_all.
  revert b; induction calls as [|call calls IH]; intros b Hs Hc; simpl; [done|].
  destruct (bus_after_stopped b call Hs Hc) as (Hs1 & Hc1 & Hq1).
  destruct (IH _ Hs1 Hc1) as (Hs2 & Hc2 & Hq2). by rewrite Hq2.
Qed.

End Stopped.

Lemma stopped_bus_accepts_nothing_witness :
  let stopped := (Stop sample_bus CtxLive true).2 in
  let b' := bus_after_all stopped
              [CallPublish CtxLive true user_created;
               CallStart;
               CallSubscribe "event" (counting 9);
               CallPublishSync idle (CtxDone (ErrContext "deadline")) false true
                 user_created;
               CallStop CtxLive true] in
  started b' = true ∧ closed b' = true ∧ messages b' = messages stopped.
Proof.
  intros stopped b'.
  apply (stopped_bus_accepts_nothing stopped); reflexivity.
Defined.

End BusExtra.

(* ===================================================================== *)
(** * Part VI: more properties of the container *)
(* ===================================================================== *)

Module DIExtra.
Import DI DITheory.

(** ** Registration and lookup *)

Lemma register_run abstract b s :
  register abstract b s =
    if Nat.eqb (rlocked s) 0 then
      match getKey abstract with
      | Ok key => (Ok tt, set_bindings s (<[key := b]> (bindings s)))
      | Fail f => (Fail f, s)
      end
    else (Fail Deadlock, s).
Proof. unfold register, bind, lock. by destruct (rlocked s =? 0)%nat. Qed.

Lemma apply_registration_register r :
  ∃ b, apply_registration r = register (reg_abstract r) b.
Proof. destruct r; eexists; reflexivity. Qed.

(** Registering a key again replaces what was registered under it, of
    whatever kind: the container is the one the second call alone gives. *)
Theorem registration_last_wins r1 r2 s s1 :
  apply_registration r1 s = (Ok tt, s1) →
  getKey (reg_abstract r2) = getKey (reg_abstract r1) →
  apply_registration r2 s1 = apply_registration r2 s.
Proof.
  destruct (apply_registration_register r1) as [b1 ->].
  destruct (apply_registration_register r2) as [b2 ->].
  intros H1 Hkey. rewrite !register_run, Hkey. rewrite register_run in H1.
  destruct (rlocked s =? 0)%nat eqn:Hl; [|discriminate].
  destruct (getKey (reg_abstract r1)) as [key|]; [|discriminate].
  injection H1 as <-. simpl. rewrite Hl. unfold set_bindings; simpl.
  by rewrite insert_insert_eq.
Qed.

(** After a registration [Has] answers true, for the abstract given and
    for its [reflect.Type] (the way [Make] is called), and changes
    nothing. *)
Theorem Has_after_registration r s s1 :
  apply_registration r s = (Ok tt, s1) →
  (∀ t, reg_abstract r ≠ VType t) →
  Has (reg_abstract r) s1 = (Ok true, s1) ∧
  Has (reflect_TypeOf (reg_abstract r)) s1 = (Ok true, s1).
Proof.
  destruct (apply_registration_register r) as [b ->].
  intros H Hnot. rewrite register_run in H.
  destruct (rlocked s =? 0)%nat; [|discriminate].
  destruct (getKey (reg_abstract r)) as [key|] eqn:Hkey; [|discriminate].
  injection H as <-.
  assert (getKey (reflect_TypeOf (reg_abstract r)) = Ok key) as Hkey'.
  { unfold getKey, reflect_TypeOf in *.
    destruct (reg_abstract r); simpl in *; try done. by destruct (Hnot t). }
  unfold Has. rewrite Hkey, Hkey'. simpl. rewrite lookup_insert_eq.
  split; f_equal; f_equal; by apply bool_decide_eq_true.
Qed.

(** When [Has] answers false, [MakeWith] fails with "no binding found"
    for that key, whatever the parameters, and changes nothing. *)
Theorem Make_fails_where_Has_is_false code implements abstract s s' :
  Has abstract s = (Ok false, s') →
  ∃ key, getKey abstract = Ok key ∧
    ∀ fuel params,
      MakeWith code implements (S fuel) abstract params s
        = (Fail (Err (ErrNoBinding key)), s).
Proof.
  unfold Has. destruct (getKey abstract) as [key|] eqn:Hkey; [|discriminate].
  intros [= Hhas _]. apply bool_decide_eq_false in Hhas.
  exists key. split; [done|]. intros fuel params. simpl. rewrite Hkey.
  destruct (bindings s !! key) eqn:Hb; [|done].
  destruct Hhas. by eexists.
Qed.

(** ** Instance bindings *)

Section Resolution.
Variable code : nat → list value → prog.
Variable implements : rtype → rtype → bool.

Lemma MakeWith_instance_binding fuel abstract params key b t s :
  getKey abstract = Ok key →
  bindings s !! key = Some b →
  factory b = None →
  shared b = false →
  TypeOf (concrete b) = Some t →
  kind_of t ≠ Func →
  (∀ v s', MakeWith code implements (S fuel) abstract params s = (Ok v, s') →
           v = concrete b) ∧
  (kind_of t ≠ Ptr →
   MakeWith code implements (S fuel) abstract params s = (Ok (concrete b), s)).
Proof.
  intros Hkey Hb Hf Hsh Ht Hfunc. simpl.
  rewrite Hkey, Hb, Hsh, Hf. unfold bind, build_with. rewrite Ht.
  destruct t as [n|n|n|e|ins outs]; try (split; [by intros v s' [= <- _]|done]).
  - destruct e; try (split; [by intros v s' [= <- _]|done]).
    split; [|done]. intros v s'. unfold bind.
    destruct (AutoWire_with _ _ _ s) as [[[]|f] s1]; [|discriminate].
    by intros [= <- _].
  - by destruct Hfunc.
Qed.

(** A binding made from an instance (not a func, no factory) resolves to
    that very instance, whatever else is bound or cached under other
    keys; and when the instance is not a pointer the call cannot fail and
    changes nothing. *)
Theorem Make_returns_the_bound_instance fuel abstract params key b t s :
  getKey abstract = Ok key →
  bindings s !! key = Some b →
  factory b = None →
  shared b = false →
  TypeOf (concrete b) = Some t →
  kind_of t ≠ Func →
  (∀ v s', MakeWith code implements (S fuel) abstract params s = (Ok v, s') →
           v = concrete b) ∧
  (kind_of t ≠ Ptr →
   MakeWith code implements (S fuel) abstract params s = (Ok (concrete b), s)).
Proof. apply MakeWith_instance_binding. Qed.

(** ** AutoWire on a struct with nothing to inject *)

Lemma autowire_field_skips make a (obj : object) i f s :
  heap s !! a = Some obj → obj !! i = Some f → injectable f = false →
  autowire_field implements make a i s = (Ok tt, s).
Proof.
  intros Ha Hi Hinj. unfold autowire_field. rewrite Ha. simpl. rewrite Hi.
  unfold injectable in Hinj.
  destruct (String.eqb (inject f) "" && negb (Anonymous f)); [done|].
  destruct (IsZero (Type_ f) (fvalue f)); [|done].
  simpl in *. by destruct (Type_ f).
Qed.

Lemma autowire_fields_skip make a (obj : object) idxs s :
  heap s !! a = Some obj →
  (∀ i f, obj !! i = Some f → injectable f = false) →
  Forall (λ i, i < List.length obj) idxs →
  autowire_fields implements make a idxs s = (Ok tt, s).
Proof.
  intros Ha Hall. induction 1 as [|i idxs Hi _ IH]; simpl; [done|].
  unfold bind. destruct (lookup_lt_is_Some_2 obj i Hi) as [f Hf].
  by rewrite (autowire_field_skips make a obj i f s Ha Hf (Hall _ _ Hf)).
Qed.

(** When no field of the target passes the guards of the loop (no tag and
    not embedded, or already set, or not of interface or pointer kind),
    [AutoWire] returns nil without resolving anything: the state is the
    same, whatever is bound and with no call to [Make] at all. *)
Theorem AutoWire_with_nothing_to_inject fuel name a (obj : object) s :
  heap s !! a = Some obj →
  forallb (λ f, negb (injectable f)) obj = true →
  AutoWire code implements fuel (VPtr (TStruct name) (Some a)) s = (Ok tt, s).
Proof.
  intros Ha Hall. unfold AutoWire, AutoWire_with. rewrite Ha.
  apply (autowire_fields_skip _ a obj); [done| |].
  - intros i f Hf. rewrite forallb_forall in Hall.
    apply negb_true_iff, Hall, list_elem_of_In. by eapply list_elem_of_lookup_2.
  - apply Forall_forall. intros i Hi. apply elem_of_seq in Hi. lia.
Qed.

(** ** Constructors that return a pointer *)

(** [build] wires whatever pointer a constructor returns.  When the
    constructor returns, with no error, a nil pointer or a pointer to
    something that is not a struct, [build] fails with "target must be a
    pointer to a struct"; bound as an instance, a pointer to a non-struct
    is returned as it is. *)
Theorem build_rejects_constructor_non_struct_pointer
    fuel ins tout body params args t a s s1 s2 :
  build_args (Make code implements fuel) params 0 ins
    (replicate (List.length ins) VNil) s = (Ok args, s1) →
  Call code implements (Make code implements fuel) (VFunc ins [tout] body) args s1
    = (Ok [VPtr t a], s2) →
  (∀ n a', ¬ (t = TStruct n ∧ a = Some a')) →
  build code implements fuel (VFunc ins [tout] body) params s
    = (Fail (Err ErrNotStruct), s2) ∧
  ((∀ n, t ≠ TStruct n) →
   build code implements fuel (VPtr t a) params s = (Ok (VPtr t a), s)).
Proof.
  intros Hargs Hcall Hnot. split.
  - unfold build, build_with. cbn [TypeOf List.length Nat.eqb negb andb].
    unfold bind. rewrite Hargs, Hcall.
    unfold wire_result, bind. cbn [TypeOf kind_of AutoWire_with].
    destruct t as [n| | | |]; try done.
    destruct a as [a'|]; [|done]. by destruct (Hnot n a').
  - intros Hns. unfold build, build_with. simpl.
    destruct t; try done. by destruct (Hns name).
Qed.

End Resolution.

Lemma Make_returns_the_bound_instance_witness :
  bindings Sample.with_ctor !! "*app.Dep"
    = Some {| concrete := Sample.dep1; factory := None;
              shared := false; tags := [] |} ∧
  ((∀ v s', MakeWith Sample.code Sample.implements 1 (VType (TPtr Sample.Dep))
              Sample.override Sample.with_ctor = (Ok v, s') →
            v = Sample.dep1) ∧
   (kind_of (TPtr Sample.Dep) ≠ Ptr →
    MakeWith Sample.code Sample.implements 1 (VType (TPtr Sample.Dep))
      Sample.override Sample.with_ctor = (Ok Sample.dep1, Sample.with_ctor))).
Proof.
  split; [vm_compute; reflexivity|].
  apply (Make_returns_the_bound_instance Sample.code Sample.implements 0
           (VType (TPtr Sample.Dep)) Sample.override "*app.Dep"
           {| concrete := Sample.dep1; factory := None;
              shared := false; tags := [] |}
           (TPtr Sample.Dep) Sample.with_ctor);
    try (vm_compute; reflexivity); discriminate.
Defined.

Lemma AutoWire_with_nothing_to_inject_witness :
  AutoWire Fixtures.code Sample.implements 0 Fixtures.plain Fixtures.wired
    = (Ok tt, Fixtures.wired).
Proof.
  apply (AutoWire_with_nothing_to_inject Fixtures.code Sample.implements 0
           "app.Plain" 1 (default [] (Fixtures.objects !! 1)));
    vm_compute; reflexivity.
Defined.

Lemma build_rejects_constructor_non_struct_pointer_witness :
  build Fixtures.code Sample.implements 1 Fixtures.NewNothing None Fixtures.empty
    = (Fail (Err ErrNotStruct), Fixtures.empty).
Proof.
  apply (build_rejects_constructor_non_struct_pointer Fixtures.code
           Sample.implements 1 [] (TPtr Sample.Dep) 0 None [] Sample.Dep None
           Fixtures.empty Fixtures.empty Fixtures.empty);
    [vm_compute; reflexivity | vm_compute; reflexivity
    | intros n a' [_ H]; discriminate H].
Defined.

(** ** What resolution does to the container itself *)

Lemma cache_step_refl s : cache_step s s.
Proof. split; [done|]. split; [done|]. intros k. by left. Qed.

Lemma cache_step_trans s1 s2 s3 :
  cache_step s1 s2 → cache_step s2 s3 → cache_step s1 s3.
Proof.
  intros (Hb1 & Hl1 & H1) (Hb2 & Hl2 & H2). split; [congruence|].
  split; [congruence|]. intros k.
  destruct (H1 k) as [Heq1|Hw]; [|by right].
  destruct (H2 k) as [Heq2|(Hz & b & Hb & Hsh)]; [left; congruence|].
  right. split; [congruence|]. exists b. split; [congruence|done].
Qed.

(** Only the three fields that [cache_step] reads matter. *)
Lemma cache_step_same s s1 s2 :
  cache_step s s1 →
  bindings s2 = bindings s1 → singletons s2 = singletons s1 →
  rlocked s2 = rlocked s1 →
  cache_step s s2.
Proof.
  intros (Hb & Hl & H) Hb2 Hs2 Hl2. split; [congruence|]. split; [congruence|].
  intros k. rewrite Hs2. apply H.
Qed.

Lemma cache_step_set_field s s1 a i v :
  cache_step s s1 → cache_step s (set_field s1 a i v).
Proof.
  intros H. eapply cache_step_same; [exact H|..];
    unfold set_field; by repeat case_match.
Qed.

Lemma cache_step_store s s1 key b v :
  cache_step s s1 → rlocked s1 = 0 →
  bindings s !! key = Some b → shared b = true →
  cache_step s (set_singletons s1 (<[key := v]> (singletons s1))).
Proof.
  intros (Hb & Hl & H) Hz Hkey Hsh. split; [done|]. split; [done|].
  intros k. simpl. destruct (decide (key = k)) as [<-|Hne].
  - right. split; [congruence|]. by exists b.
  - rewrite lookup_insert_ne by done. apply H.
Qed.

Lemma disciplined_ret {A} (a : A) : disciplined (ret a).
Proof. intros s r s' [= _ <-]. apply cache_step_refl. Qed.

Lemma disciplined_fail {A} f : disciplined (@fail A f).
Proof. intros s r s' [= _ <-]. apply cache_step_refl. Qed.

Lemma disciplined_bind {A B} (m : M A) (k : A → M B) :
  disciplined m → (∀ a, disciplined (k a)) → disciplined (bind m k).
Proof.
  intros Hm Hk s r s'. unfold bind.
  destruct (m s) as [[a|f] s1] eqn:E; intros H.
  - eapply cache_step_trans; [by eapply Hm | by eapply Hk].
  - simplify_eq. by eapply Hm.
Qed.

Create HintDb disciplined.
#[local] Hint Resolve disciplined_ret disciplined_fail : disciplined.

Section Disciplined.
Variable code : nat → list value → prog.
Variable implements : rtype → rtype → bool.

Section WithMake.
Variable make : value → M value.
Hypothesis make_disciplined : ∀ x, disciplined (make x).

Lemma disciplined_autowire_field a i :
  disciplined (autowire_field implements make a i).
Proof.
  intros s r s'. unfold autowire_field.
  destruct (heap s !! a ≫= (.!! i)) as [field|];
    [|intros [= _ <-]; apply cache_step_refl].
  destruct (String.eqb (inject field) "" && negb (Anonymous field));
    [intros [= _ <-]; apply cache_step_refl|].
  destruct (IsZero (Type_ field) (fvalue field)); simpl;
    [|intros [= _ <-]; apply cache_step_refl].
  assert (∀ x,
    match make x s with
    | (Ok instance, s1) =>
        if exported field then
          match TypeOf instance with
          | None => (Fail (Panic "reflect: call of reflect.Value.Type on zero Value"), s1)
          | Some t =>
              if AssignableTo implements t (Type_ field)
              then (Ok tt, set_field s1 a i instance)
              else (Ok tt, s1)
          end
        else (Ok tt, s1)
    | (Fail (Err err), s1) =>
        if String.eqb (inject field) "optional" then (Ok tt, s1)
        else (Fail (Err (ErrField (Name field) err)), s1)
    | (Fail f, s1) => (Fail f, s1)
    end = (r, s') → cache_step s s') as Hresolve.
  { intros x. destruct (make x s) as [[v|f] s1] eqn:E;
      apply make_disciplined in E;
      repeat case_match; intros [= _ <-]; try done.
    by apply cache_step_set_field. }
  destruct (Type_ field); try (intros [= _ <-]; apply cache_step_refl);
    apply Hresolve.
Qed.

Lemma disciplined_autowire_fields a idxs :
  disciplined (autowire_fields implements make a idxs).
Proof.
  induction idxs as [|i idxs IH]; simpl; [apply disciplined_ret|].
  apply disciplined_bind; [apply disciplined_autowire_field|done].
Qed.

Lemma disciplined_AutoWire_with target :
  disciplined (AutoWire_with implements make target).
Proof.
  unfold AutoWire_with. repeat case_match; auto with disciplined.
  intros s r s'. case_match; [apply disciplined_autowire_fields|].
  intros [= _ <-]; apply cache_step_refl.
Qed.

Lemma disciplined_run p : disciplined (run implements make p).
Proof.
  induction p as [results|name obj k IH|abstract k IH|target k IH];
    intros s r s'; simpl.
  - intros [= _ <-]. apply cache_step_refl.
  - intros H. eapply cache_step_same; [|reflexivity..].
    apply (IH _ _ _ _) in H. destruct H as (Hb & Hl & H).
    split; [done|]. split; [done|]. exact H.
  - destruct (make abstract s) as [[v|[e|msg| |]] s1] eqn:E; intros H;
      try (simplify_eq; by eapply make_disciplined).
    + eapply cache_step_trans; [by eapply make_disciplined | by eapply IH].
    + eapply cache_step_trans; [by eapply make_disciplined | by eapply IH].
  - destruct (AutoWire_with implements make target s) as [[v|[e|msg| |]] s1] eqn:E;
      intros H; try (simplify_eq; by eapply disciplined_AutoWire_with).
    + eapply cache_step_trans; [by eapply disciplined_AutoWire_with | by eapply IH].
    + eapply cache_step_trans; [by eapply disciplined_AutoWire_with | by eapply IH].
Qed.

Lemma disciplined_call_factory f : disciplined (call_factory code implements make f).
Proof.
  apply disciplined_bind; [apply disciplined_run|].
  intros results. repeat case_match; auto with disciplined.
Qed.

Lemma disciplined_build_args params i ins args :
  disciplined (build_args make params i ins args).
Proof.
  revert i args; induction ins as [|t ins IH]; intros i args; simpl;
    [apply disciplined_ret|].
  intros s r s'.
  destruct (make (VType t) s) as [[v|[e|msg| |]] s1] eqn:E; intros H;
    try (simplify_eq; by eapply make_disciplined).
  eapply cache_step_trans; [by eapply make_disciplined | by eapply IH].
Qed.

Lemma disciplined_Call fn args : disciplined (Call code implements make fn args).
Proof.
  unfold Call. repeat case_match; auto with disciplined.
  apply disciplined_bind; [apply disciplined_run|].
  intros; case_match; auto with disciplined.
Qed.

Lemma disciplined_wire_result instance :
  disciplined (wire_result implements make instance).
Proof.
  unfold wire_result. repeat case_match; auto with disciplined.
  apply disciplined_bind; [apply disciplined_AutoWire_with|auto with disciplined].
Qed.

Lemma disciplined_build_with concrete_ params :
  disciplined (build_with code implements make concrete_ params).
Proof.
  unfold build_with.
  destruct (TypeOf concrete_) as [[n|n|n|e|ins outs]|]; auto with disciplined.
  - destruct e; auto with disciplined.
    apply disciplined_bind; [apply disciplined_AutoWire_with|auto with disciplined].
  - case_match; auto with disciplined.
    apply disciplined_bind; [apply disciplined_build_args|]. intros args.
    apply disciplined_bind; [apply disciplined_Call|]. intros results.
    repeat case_match; auto using disciplined_wire_result with disciplined.
Qed.

End WithMake.

Lemma disciplined_MakeWith fuel abstract params :
  disciplined (MakeWith code implements fuel abstract params).
Proof.
  revert abstract params; induction fuel as [|fuel IH]; intros abstract params;
    simpl; [apply disciplined_fail|].
  intros s r s'.
  destruct (getKey abstract) as [key|f]; [|intros [= _ <-]; apply cache_step_refl].
  destruct (bindings s !! key) as [b|] eqn:Hb;
    [|intros [= _ <-]; apply cache_step_refl].
  destruct (if shared b then singletons s !! key else None) as [inst|] eqn:Hc;
    [intros [= _ <-]; apply cache_step_refl|].
  unfold bind.
  set (built := match factory b with
                | Some f => call_factory code implements
                              (λ a, MakeWith code implements fuel a None) f
                | None => build_with code implements
                            (λ a, MakeWith code implements fuel a None)
                            (concrete b) params
                end).
  assert (disciplined built) as Hbuilt.
  { subst built. destruct (factory b).
    - apply disciplined_call_factory. intros x; apply IH.
    - apply disciplined_build_with. intros x; apply IH. }
  destruct (built s) as [[instance|f] s1] eqn:E; apply Hbuilt in E;
    [|intros [= _ <-]; done].
  destruct (shared b) eqn:Hsh; [|intros [= _ <-]; done].
  unfold lock. destruct (rlocked s1 =? 0)%nat eqn:Hz; intros [= _ <-]; [|done].
  apply Nat.eqb_eq in Hz. by eapply cache_step_store.
Qed.

Lemma disciplined_resolve_all fuel occs :
  disciplined (resolve_all code implements fuel occs).
Proof.
  induction occs as [|[key b] occs IH]; simpl; [apply disciplined_ret|].
  apply disciplined_bind.
  - intros s r s'. unfold resolve_tagged.
    destruct (if shared b then singletons s !! key else None);
      [intros [= _ <-]; apply cache_step_refl|].
    destruct (factory b).
    + apply disciplined_call_factory. intros x; apply disciplined_MakeWith.
    + apply disciplined_build_with. intros x; apply disciplined_MakeWith.
  - intros v. apply disciplined_bind; [exact IH|]. intros vs. apply disciplined_ret.
Qed.


Lemma Tagged_cache_frame fuel keys tag s :
  let s' := (Tagged code implements fuel keys tag s).2 in
  singletons s' = singletons s ∧
  bindings s' = bindings s ∧
  rlocked s' = rlocked s.
Proof.
  rewrite Tagged_spec.
  destruct (resolve_all _ _ _ _ _) as [r1 s1] eqn:E. cbn zeta. cbn [snd].
  apply disciplined_resolve_all in E as (Hb & Hl & H). simpl in *.
  split; [|split; [done|by rewrite Hl]].
  apply map_eq. intros k. by destruct (H k) as [|[Hz _]].
Qed.


(** While the read lock is held, as it is all through [Tagged], a shared
    binding that is not cached yet cannot be resolved: [MakeWith] never
    returns an instance (at best it reaches [mu.Lock()] and stays there). *)
Theorem MakeWith_under_read_lock_never_returns fuel abstract params key b s :
  rlocked s ≠ 0 →
  getKey abstract = Ok key →
  bindings s !! key = Some b →
  shared b = true →
  singletons s !! key = None →
  ∀ v, (MakeWith code implements fuel abstract params s).1 ≠ Ok v.
Proof.
  intros Hl Hkey Hb Hsh Hnone v Hfst.
  destruct (MakeWith code implements fuel abstract params s) as [r s'] eqn:Hrun.
  simpl in Hfst. subst r.
  pose proof (MakeWith_shared_caches _ _ _ _ _ _ _ _ _ _ Hkey Hb Hsh Hrun) as Hc.
  apply disciplined_MakeWith in Hrun as (_ & _ & H).
  destruct (H key) as [Heq|[Hz _]]; [congruence|done].
Qed.

(** With no binding that lists the tag, [Tagged] returns no instance and
    no error and leaves the state as it was. *)
Theorem Tagged_without_match fuel keys tag s :
  (∀ key b, bindings s !! key = Some b → tag ∉ tags b) →
  Tagged code implements fuel keys tag s = (Ok [], s).
Proof.
  intros Hnone. rewrite Tagged_spec.
  assert (tagged_occurrences tag keys s = []) as ->.
  { unfold tagged_occurrences. induction keys as [|key keys IH]; simpl; [done|].
    rewrite IH, app_nil_r. destruct (bindings s !! key) as [b|] eqn:Hb; [|done].
    assert (occurrences tag (tags b) = 0) as ->; [|done].
    specialize (Hnone key b Hb). unfold occurrences.
    induction (tags b) as [|t ts IHt]; simpl; [done|].
    apply not_elem_of_cons in Hnone as [Hne Hts].
    destruct (String.eqb_spec t tag); [congruence|]. by apply IHt. }
  simpl. by destruct s.
Qed.

(** Whatever calls are made on a container in which every cached key is
    bound (a new container is one), every cached key is still bound
    afterwards. *)
Theorem cached_keys_stay_bound fuel ops s :
  cached_keys_bound s →
  cached_keys_bound (run_operations code implements fuel ops s).
Proof.
  unfold run_operations. revert s; induction ops as [|op ops IH]; intros s Hs;
    simpl; [done|].
  apply IH. clear IH.
  assert (∀ s', cache_step s s' → cached_keys_bound s') as Hstep.
  { intros s' (Hb & _ & H) k v Hk. rewrite Hb.
    destruct (H k) as [Heq|(_ & b & -> & _)]; [|by eexists].
    rewrite Heq in Hk. by eapply Hs. }
  destruct op as [r|abstract params|target|keys tag]; simpl.
  - destruct (apply_registration_register r) as [b ->].
    rewrite register_run. repeat case_match; simpl; try done.
    intros k v Hk. simpl in *. destruct (Hs k v Hk) as [b' Hb'].
    destruct (decide (a = k)) as [->|Hne].
    + rewrite lookup_insert_eq. by eexists.
    + rewrite lookup_insert_ne by done. by eexists.
  - apply Hstep. eapply disciplined_MakeWith. apply surjective_pairing.
  - apply Hstep. eapply disciplined_AutoWire_with;
      [intros x; apply disciplined_MakeWith | apply surjective_pairing].
  - destruct (Tagged_cache_frame fuel keys tag s) as (Hc & Hb & _).
    intros k v. rewrite Hc, Hb. apply Hs.
Qed.

End Disciplined.

Lemma tagged_count_zero tag s :
  tagged_count tag s = 0 →
  ∀ key b, bindings s !! key = Some b → tag ∉ tags b.
Proof.
  unfold tagged_count. intros Hlen key b Hb Hin.
  apply elem_of_map_to_list in Hb. apply length_zero_iff_nil in Hlen.
  assert (In (key, b)
            (List.filter (λ kb : string * binding,
                            existsb (λ t, String.eqb t tag) (tags kb.2))
               (map_to_list (bindings s)))) as Hf.
  { apply filter_In. split; [by apply list_elem_of_In|]. simpl.
    apply existsb_exists. exists tag. split; [by apply list_elem_of_In|].
    apply String.eqb_refl. }
  by rewrite Hlen in Hf.
Qed.

(** ** The definitions at work on the fixtures *)

Lemma registration_last_wins_witness :
  apply_registration (DoBind (VPtr Sample.Svc None) Fixtures.NewNothing)
    (apply_registration (DoSingleton (VType (TPtr Sample.Svc)) Fixtures.NewSvc)
       Fixtures.empty).2
  = apply_registration (DoBind (VPtr Sample.Svc None) Fixtures.NewNothing)
      Fixtures.empty.
Proof.
  apply (registration_last_wins
           (DoSingleton (VType (TPtr Sample.Svc)) Fixtures.NewSvc)
           (DoBind (VPtr Sample.Svc None) Fixtures.NewNothing)
           Fixtures.empty);
    vm_compute; reflexivity.
Defined.

Lemma Has_after_registration_witness :
  let s1 := (apply_registration
               (DoFactory (VPtr Sample.Svc None) 1) Fixtures.empty).2 in
  Has (VPtr Sample.Svc None) s1 = (Ok true, s1) ∧
  Has (VType (TPtr Sample.Svc)) s1 = (Ok true, s1).
Proof.
  apply (Has_after_registration (DoFactory (VPtr Sample.Svc None) 1)
           Fixtures.empty);
    [vm_compute; reflexivity | intros t; discriminate].
Defined.

Lemma Make_fails_where_Has_is_false_witness :
  ∃ key, getKey (VType (TPtr Sample.Svc)) = Ok key ∧
    ∀ fuel params,
      MakeWith Fixtures.code Sample.implements (S fuel) (VType (TPtr Sample.Svc))
        params Fixtures.empty
        = (Fail (Err (ErrNoBinding key)), Fixtures.empty).
Proof.
  apply (Make_fails_where_Has_is_false Fixtures.code Sample.implements
           (VType (TPtr Sample.Svc)) Fixtures.empty Fixtures.empty).
  vm_compute; reflexivity.
Defined.

Lemma MakeWith_under_read_lock_never_returns_witness :
  rlocked (set_rlocked Fixtures.wired 1) ≠ 0 ∧
  ∀ v, (MakeWith Fixtures.code Sample.implements 3 (VType (TPtr Sample.Dep)) None
          (set_rlocked Fixtures.wired 1)).1 ≠ Ok v.
Proof.
  split; [discriminate|].
  apply (MakeWith_under_read_lock_never_returns Fixtures.code Sample.implements
           3 (VType (TPtr Sample.Dep)) None "*app.Dep"
           {| concrete := VPtr Sample.Dep (Some 0); factory := None;
              shared := true; tags := [] |}
           (set_rlocked Fixtures.wired 1));
    try (vm_compute; reflexivity); discriminate.
Defined.

(** The same through [Tagged]: the tagged constructor [NewSvc] asks for a
    [*Dep], which is bound with [Singleton] and not built yet. *)
Example Tagged_reaches_the_write_lock :
  (Tagged Fixtures.code Sample.implements 3 ["*app.Svc"; "*app.Dep"] "plugin"
     Fixtures.wired).1 = Fail Deadlock.
Proof. vm_compute; reflexivity. Qed.

Lemma Tagged_without_match_witness :
  Tagged Fixtures.code Sample.implements 3 ["*app.Svc"; "*app.Dep"] "missing"
    Fixtures.wired = (Ok [], Fixtures.wired).
Proof.
  apply (Tagged_without_match Fixtures.code Sample.implements 3
           ["*app.Svc"; "*app.Dep"] "missing" Fixtures.wired).
  apply tagged_count_zero. vm_compute. reflexivity.
Defined.

Lemma cached_keys_stay_bound_witness :
  cached_keys_bound
    (run_operations Fixtures.code Sample.implements 3
       [OpRegister (DoSingleton (VPtr Sample.Dep None) (VPtr Sample.Dep (Some 0)));
        OpMakeWith (VType (TPtr Sample.Dep)) None;
        OpRegister (DoBind (VPtr Sample.Svc None) Fixtures.NewSvc);
        OpTagged ["*app.Svc"] "plugin";
        OpAutoWire Fixtures.plain]
       Fixtures.empty).
Proof.
  apply (cached_keys_stay_bound Fixtures.code Sample.implements 3).
  intros k v H. vm_compute in H. discriminate H.
Defined.

(** ** Non-shared factories *)

Section Factories.
Variable code : nat → list value → prog.
Variable implements : rtype → rtype → bool.

Lemma Make_runs_the_factory fuel abstract key b f name (obj : object) s :
  getKey abstract = Ok key →
  bindings s !! key = Some b →
  factory b = Some f →
  shared b = false →
  code f [] = New name obj (λ p, Return [p; VNil]) →
  Make code implements (S fuel) abstract s
    = (Ok (VPtr (TStruct name) (Some (List.length (heap s)))),
       set_heap s (heap s ++ [obj])).
Proof.
  intros Hkey Hb Hf Hsh Hcode. unfold Make. simpl.
  rewrite Hkey, Hb, Hsh, Hf. unfold bind, call_factory, bind.
  rewrite Hcode. reflexivity.
Qed.

(** A binding made with [Factory] (not shared) whose factory allocates a
    struct and returns it: [n] calls of [Make] run the factory [n] times.
    They return [n] different new pointers, leave [n] new objects behind
    exactly as the factory made them (a factory's result is not wired,
    whatever tags its fields carry), and touch neither the cache nor the
    bindings. *)
Theorem Factory_runs_at_every_Make fuel abstract key b f name (obj : object) n s :
  getKey abstract = Ok key →
  bindings s !! key = Some b →
  factory b = Some f →
  shared b = false →
  code f [] = New name obj (λ p, Return [p; VNil]) →
  make_times code implements (S fuel) abstract n s
    = (map (λ i, Ok (VPtr (TStruct name) (Some (List.length (heap s) + i))))
         (seq 0 n),
       set_heap s (heap s ++ replicate n obj)).
Proof.
  intros Hkey Hb Hf Hsh Hcode. revert s Hb.
  induction n as [|n IH]; intros s Hb.
  - simpl. rewrite app_nil_r. by destruct s.
  - cbn [make_times].
    rewrite (Make_runs_the_factory fuel abstract key b f name obj s)
      by done.
    rewrite (IH (set_heap s (heap s ++ [obj]))) by done.
    cbn [seq map]. rewrite <- seq_shift, map_map. f_equal.
    + f_equal.
      * do 3 f_equal. lia.
      * apply map_ext. intros i. simpl. rewrite length_app. simpl.
        do 3 f_equal. lia.
    + unfold set_heap; simpl. by rewrite <- app_assoc.
Qed.

(** ** Type mismatch *)

Lemma autowire_fields_unchanged make a (obj : object) idxs s :
  (∀ i, i < List.length obj →
        autowire_field implements make a i s = (Ok tt, s)) →
  Forall (λ i, i < List.length obj) idxs →
  autowire_fields implements make a idxs s = (Ok tt, s).
Proof.
  intros Hall. induction 1 as [|i idxs Hi _ IH]; simpl; [done|].
  unfold bind. by rewrite (Hall i Hi).
Qed.

(** The value [Make] returns for a field is set only when it is
    assignable to the field.  When every field to inject is a pointer
    field whose key is bound to a value that is not a pointer (a struct
    instead of a pointer to it, say), [AutoWire] returns nil and leaves
    all those fields nil: the mismatch is not reported. *)
Theorem AutoWire_swallows_type_mismatch fuel name a (obj : object) s :
  heap s !! a = Some obj →
  (∀ i f, obj !! i = Some f →
     injectable f = false ∨
     ∃ elem b t z,
       Type_ f = TPtr elem ∧
       bindings s !! type_string (TPtr elem) = Some b ∧
       factory b = None ∧ shared b = false ∧
       concrete b = VData t z ∧ kind_of t ≠ Ptr ∧ kind_of t ≠ Func) →
  AutoWire code implements (S fuel) (VPtr (TStruct name) (Some a)) s = (Ok tt, s).
Proof.
  intros Ha Hall. unfold AutoWire, AutoWire_with. rewrite Ha.
  apply (autowire_fields_unchanged _ a obj).
  - intros i Hi. destruct (lookup_lt_is_Some_2 obj i Hi) as [f Hf].
    destruct (Hall i f Hf) as [Hskip|(elem & b & t & z & Hty & Hb & Hfac & Hsh & Hc & Hp & Hfn)].
    + by eapply autowire_field_skips.
    + unfold autowire_field. rewrite Ha. simpl. rewrite Hf.
      destruct (String.eqb (inject f) "" && negb (Anonymous f)); [done|].
      destruct (IsZero (Type_ f) (fvalue f)); [|done]. simpl. rewrite Hty.
      destruct (MakeWith_instance_binding code implements fuel
                  (VType (TPtr elem)) None (type_string (TPtr elem)) b t s
                  eq_refl Hb Hfac Hsh) as [_ Hmake]; [by rewrite Hc|done|].
      unfold Make. rewrite (Hmake Hp), Hc. simpl.
      destruct (exported f); [|done].
      unfold AssignableTo. destruct t; simpl; try done; by destruct Hp.
  - apply Forall_forall. intros i Hi. apply elem_of_seq in Hi. lia.
Qed.

(** ** What no sequence of calls undoes *)





End Factories.

Lemma Factory_runs_at_every_Make_witness :
  make_times Fixtures.code Sample.implements 1
    (VType (TPtr (TStruct "app.Job"))) 3 Fixtures.with_factory
  = ([Ok (VPtr (TStruct "app.Job") (Some 2));
      Ok (VPtr (TStruct "app.Job") (Some 3));
      Ok (VPtr (TStruct "app.Job") (Some 4))],
     set_heap Fixtures.with_factory
       (heap Fixtures.with_factory ++
        replicate 3 [Sample.field "Dep" (TPtr Sample.Dep) "true"
                       (VPtr Sample.Dep None)])).
Proof.
  apply (Factory_runs_at_every_Make Fixtures.code Sample.implements 0
           (VType (TPtr (TStruct "app.Job"))) "*app.Job"
           {| concrete := VNil; factory := Some 2; shared := false; tags := [] |}
           2 "app.Job"
           [Sample.field "Dep" (TPtr Sample.Dep) "true" (VPtr Sample.Dep None)]
           3 Fixtures.with_factory);
    vm_compute; reflexivity.
Defined.

Lemma AutoWire_swallows_type_mismatch_witness :
  AutoWire Fixtures.code Sample.implements 1 Fixtures.job Fixtures.mismatched
    = (Ok tt, Fixtures.mismatched).
Proof.
  apply (AutoWire_swallows_type_mismatch Fixtures.code Sample.implements 0
           "app.Job" 2
           [Sample.field "Dep" (TPtr Sample.Dep) "true" (VPtr Sample.Dep None)]);
    [vm_compute; reflexivity|].
  intros [|i] f Hf; [|destruct i; discriminate Hf].
  injection Hf as <-. right.
  exists Sample.Dep,
    {| concrete := VData Sample.Dep 1; factory := None;
       shared := false; tags := [] |}, Sample.Dep, 1%Z.
  repeat split; try discriminate; vm_compute; reflexivity.
Defined.


End DIExtra.

(* ===================================================================== *)
(** * Part VII: properties of the request context *)
(* ===================================================================== *)

Module RouterTheory.
Import Router.

Section WithValues.
Context {V C : Type}.
Variable nil : V.
Implicit Types (c : defaultContext V C) (kvs : list (string * V)).

(** [Get] after [Set] gives the value set under the same key and what
    [Get] gave before under any other key; the container is the same. *)
Theorem Get_after_Set c key value key' :
  Get nil (Set_ c key value) key'
    = (if String.eqb key key' then value else Get nil c key') ∧
  Container (Set_ c key value) = Container c.
Proof.
  split; [|done]. unfold Get, Set_; simpl.
  destruct (String.eqb_spec key key') as [->|Hne].
  - by rewrite lookup_insert_eq.
  - by rewrite lookup_insert_ne.
Qed.

(** After any [Set] calls on a new context, whatever the request carried,
    the map and the request context agree: under every key [Get] returns
    what [c.req.Context().Value(key)] returns. *)
Theorem Get_agrees_with_request_context inherited (k : C) kvs key :
  let c := set_all (NewContext inherited k) kvs in
  Get nil c key = Value nil (req_values c) key.
Proof.
  induction kvs as [|[key0 value0] kvs IH] using rev_ind; simpl.
  - unfold Get. simpl. by rewrite lookup_empty.
  - unfold set_all in *. rewrite fold_left_app. simpl in *.
    set (c := fold_left _ kvs _) in *.
    unfold Get in *. simpl.
    destruct (String.eqb_spec key0 key) as [->|Hne].
    + by rewrite lookup_insert_eq.
    + rewrite lookup_insert_ne by done. exact IH.
Qed.

End WithValues.

End RouterTheory.
